(** * Dynamic Smagorinsky LES model with Lagrangian averaging

    A shallow embedding of [solvers/NSfracStep/LES/DynamicLagrangian.py]
    (functions [les_setup] and [les_update]) together with the properties
    of its specification.

    Conventions of the embedding.
    - A dolfin [Function(CG1)] is a record of an object identity and the
      numpy array of its nodal values; the array has one entry per degree
      of freedom of the space CG1, so every array of the model is a vector
      of the same length [n].
    - Floating point numbers are rendered as exact rationals.  The only
      partial operation of the code is the division of two arrays: numpy
      answers a zero divisor with [inf] or [nan], which has no rational
      counterpart, and the model reports it as [NonFinite].
    - dolfin itself and the sibling modules [DynamicModules] and [common]
      are the external collaborators of this file; they enter the model as
      the operations of the class [Substrate]. *)

From Stdlib Require Import QArith Qminmax Lqa ZArith.
From stdpp Require Import base list vector strings gmap.

Open Scope Q_scope.

(** ** Exceptions *)

Inductive exn : Type :=
| KeyError (key : string)
| ZeroDivisionError
| RuntimeError
| NonFinite.

Inductive result (A : Type) : Type :=
| OK (a : A)
| Raise (e : exn).
Arguments OK {A} a.
Arguments Raise {A} e.

#[global] Instance result_ret : MRet result := fun A a => OK a.
#[global] Instance result_bind : MBind result := fun A B f m =>
  match m with
  | OK a => f a
  | Raise e => Raise e
  end.

(** [d[key]] on a Python dict. *)
Definition getitem {V : Type} (d : gmap string V) (key : string) : result V :=
  match d !! key with
  | Some v => OK v
  | None => Raise (KeyError key)
  end.

(** [a % b] on Python integers: the sign follows the divisor, and a zero
    divisor raises. *)
Definition py_mod (a b : Z) : result Z :=
  if (b =? 0)%Z then Raise ZeroDivisionError else OK (a mod b)%Z.

(** ** numpy arrays over the degrees of freedom of CG1 *)

Abbreviation array n := (vec Q n).
Abbreviation matrix n := (vec (vec Q n) n).

Definition is_zero (x : Q) : bool := (Qnum x =? 0)%Z.

Section Arrays.
Context {n : nat}.

Definition array_zero : array n := vreplicate n 0.

(** [a * b] *)
Definition array_mul (a b : array n) : array n := vzip_with Qmult a b.

(** [a + c] for a scalar [c] (the in-place [a[:] += c]). *)
Definition array_add_scalar (a : array n) (c : Q) : array n :=
  vmap (fun x => x + c) a.

(** [a ** 2] *)
Definition array_sq (a : array n) : array n := vmap (fun x => x ^ 2) a.

(** [a / b]: defined when no entry of the divisor is zero. *)
Definition array_div (a b : array n) : result (array n) :=
  if existsb is_zero (vec_to_list b) then Raise NonFinite
  else OK (vzip_with Qdiv a b).

(** [c / b] for a scalar [c]. *)
Definition scalar_div (c : Q) (b : array n) : result (array n) :=
  array_div (vreplicate n c) b.

(** [a.clip(max=c)] *)
Definition clip_max (a : array n) (c : Q) : array n :=
  vmap (fun x => Qmin x c) a.

(** Inner product of two arrays and the matrix-vector product [A * v]. *)
Definition dot (a b : array n) : Q :=
  foldr Qplus 0 (vec_to_list (vzip_with Qmult a b)).

Definition matvec (A : matrix n) (v : array n) : array n :=
  vmap (fun row => dot row v) A.

(** [weight * a + (1 - weight) * b] *)
Definition blend (weight : Q) (a b : array n) : array n :=
  vzip_with (fun x y => weight * x + (1 - weight) * y) a b.

End Arrays.

(** ** dolfin objects *)

(** A [Function(CG1)]: the identity of the Python object and the array
    behind [f.vector()]. *)
Record Function (n : nat) : Type := mkFunction {
  fid : nat;
  values : array n
}.
Arguments mkFunction {n} fid values.
Arguments fid {n} f.
Arguments values {n} f.

(** [f.vector().set_local(a); f.vector().apply("insert")]: the object stays,
    its nodal values are replaced. *)
Definition set_local {n : nat} (f : Function n) (a : array n) : Function n :=
  mkFunction (fid f) a.

(** In-place overwrite of a list of functions by the values another list
    holds at the same positions; the list keeps its length and objects. *)
Definition overwrite {n : nat} (fs gs : list (Function n)) : list (Function n) :=
  imap (fun k f => match gs !! k with
                   | Some g => set_local f (values g)
                   | None => f
                   end) fs.

(** The parameter set of a dolfin [KrylovSolver]. *)
Record KrylovSolver : Type := mkKrylovSolver {
  solver_method : string;
  solver_preconditioner : string;
  preconditioner_structure : string;
  error_on_nonconvergence : bool;
  monitor_convergence : bool;
  report : bool
}.

(** [KrylovSolver(method, preconditioner)] with dolfin's default parameters. *)
Definition KrylovSolver_new (method preconditioner : string) : KrylovSolver :=
  mkKrylovSolver method preconditioner "different_nonzero_pattern" true false true.

Definition set_preconditioner_structure (v : string) (s : KrylovSolver) : KrylovSolver :=
  mkKrylovSolver (solver_method s) (solver_preconditioner s) v
    (error_on_nonconvergence s) (monitor_convergence s) (report s).

Definition set_error_on_nonconvergence (v : bool) (s : KrylovSolver) : KrylovSolver :=
  mkKrylovSolver (solver_method s) (solver_preconditioner s)
    (preconditioner_structure s) v (monitor_convergence s) (report s).

Definition set_monitor_convergence (v : bool) (s : KrylovSolver) : KrylovSolver :=
  mkKrylovSolver (solver_method s) (solver_preconditioner s)
    (preconditioner_structure s) (error_on_nonconvergence s) v (report s).

Definition set_report (v : bool) (s : KrylovSolver) : KrylovSolver :=
  mkKrylovSolver (solver_method s) (solver_preconditioner s)
    (preconditioner_structure s) (error_on_nonconvergence s)
    (monitor_convergence s) v.

(** What the Krylov iteration hands back: the iterate it stopped at, and
    whether the stopping criterion was met. *)
Inductive krylov_outcome (A : Type) : Type :=
| Converged (x : A)
| NotConverged (x : A).
Arguments Converged {A} x.
Arguments NotConverged {A} x.

Definition iterate {A : Type} (o : krylov_outcome A) : A :=
  match o with
  | Converged x => x
  | NotConverged x => x
  end.

(** The linear solve primitive of the external backend, dolfin's
    [KrylovSolver.solve].  A solve that did not converge raises only when
    the solver's [error_on_nonconvergence] parameter is set; otherwise the
    caller goes on with the iterate the solver stopped at. *)
Definition KrylovSolver_solve {A : Type} (s : KrylovSolver)
    (o : krylov_outcome A) : result A :=
  match o with
  | Converged x => OK x
  | NotConverged x =>
      if error_on_nonconvergence s then Raise RuntimeError else OK x
  end.

(** The function space a boundary condition is declared on: the solver's
    velocity space, or the piecewise-linear space CG1 of this module. *)
Inductive space : Type := Vspace | CG1space.

(** The allocation of Python objects during setup: a computation that draws
    fresh object identities from a counter and may raise. *)
Definition Setup (A : Type) : Type := nat -> result (A * nat).

#[global] Instance Setup_ret : MRet Setup := fun A a next => OK (a, next).
#[global] Instance Setup_bind : MBind Setup := fun A B f m next =>
  match m next with
  | OK (a, next') => f a next'
  | Raise e => Raise e
  end.

Definition lift {A : Type} (r : result A) : Setup A := fun next =>
  match r with
  | OK a => OK (a, next)
  | Raise e => Raise e
  end.

(** [Function(CG1, a)]: a new object holding the array [a]. *)
Definition new_Function {n : nat} (a : array n) : Setup (Function n) :=
  fun next => OK (mkFunction next a, S next).

(** [[Function(CG1) for i in range(k)]]: [k] new objects, each zero. *)
Fixpoint new_Functions {n : nat} (k : nat) : Setup (list (Function n)) :=
  match k with
  | O => mret []
  | S k' => f ← new_Function array_zero; fs ← new_Functions k'; mret (f :: fs)
  end.

(** The list [new_Functions k] builds when the counter stands at [a]. *)
Definition fresh_zeros {n : nat} (a k : nat) : list (Function n) :=
  map (fun i => mkFunction i array_zero) (seq a k).

Section DynamicLagrangian.

(** [n] is the number of degrees of freedom of CG1 on the mesh at hand.  The
    mesh, the solver's velocity field, and the values and sub-domains of
    boundary conditions belong to the solver and stay abstract. *)
Context {n : nat}.
Context {Mesh Velocity BCValue SubDomain : Type}.

Record DirichletBC : Type := mkDirichletBC {
  bc_space : space;
  value : BCValue;
  user_sub_domain : SubDomain
}.

(** The derived field [nut_] built by [CG1Function(nut_form, mesh, method=...,
    bcs=..., bounded=..., name="nut")]: its nodal function and the settings
    it was built with. *)
Record CG1Function : Type := mkCG1Function {
  fn : Function n;
  fn_bcs : list DirichletBC;
  fn_method : gmap string string;
  bounded : bool
}.

Definition set_fn (a : array n) (f : CG1Function) : CG1Function :=
  mkCG1Function (set_local (fn f) a) (fn_bcs f) (fn_method f) (bounded f).

(** The dict [les_setup] returns and [les_update] receives as keyword
    arguments.  The symbolic entries ([Sij], [nut_form], [delta], [CG1], [ll])
    carry no numerical state and are left out. *)
Record Bundle : Type := mkBundle {
  nut_ : CG1Function;
  bcs_nut : list DirichletBC;
  delta_CG1_sq : Function n;
  Cs : Function n;
  u_CG1 : list (Function n);
  u_filtered : list (Function n);
  Lij : list (Function n);
  Mij : list (Function n);
  Sijcomps : list (Function n);
  Sijfcomps : list (Function n);
  Sijmats : list (matrix n);
  JLM : Function n;
  JMM : Function n;
  dim : nat;
  tensdim : nat;
  G_matr : matrix n;
  G_under : Function n;
  dummy : Function n;
  uiuj_pairs : list (nat * nat);
  Sij_sol : KrylovSolver;
  bcs_u_CG1 : gmap string (list DirichletBC)
}.

(** The remaining arguments of [les_update]: the extrapolated velocity, the
    component names, the time step, the step index, the model's configuration
    dict, and the solver's current velocity [u_] that [nut_form] refers to. *)
Record Locals : Type := mkLocals {
  u_ab : Velocity;
  u_components : list string;
  dt : Q;
  tstep : Z;
  DynamicSmagorinsky : gmap string Z;
  u_ : Velocity
}.

(** The external collaborators.  The first group is dolfin; the second is
    the code of [common] and [DynamicModules], which this file imports.  A
    helper of [DynamicModules] receives every local of [les_update] through
    [**vars()] and mutates objects in place: it is given the bundle and
    answers with the bundle as it leaves it. *)
Class Substrate : Type := {
  (** [mesh.geometry().dim()] *)
  geometry_dim : Mesh -> nat;
  (** [project(pow(CellVolume(mesh), 1./dim), CG1).vector().array()] *)
  project_delta : Mesh -> array n;
  (** [assemble(TestFunction(CG1)*dx).array()] *)
  assemble_test : Mesh -> array n;
  (** [assemble(inner(p,q)*dx)] *)
  assemble_mass : Mesh -> matrix n;
  (** the degrees of freedom of CG1 a sub-domain marks, and the value a
      boundary condition prescribes there *)
  boundary_dofs : SubDomain -> list (fin n);
  boundary_value : BCValue -> fin n -> Q;
  (** [common.derived_bcs(CG1, bcs, u_)] *)
  derived_bcs : list DirichletBC -> Velocity -> list DirichletBC;
  (** [nut_()]: the nodal values of [nut_form] evaluated with the given
      values of the coefficient field and the given velocity *)
  CG1Function_call : array n -> Velocity -> CG1Function -> array n;
  dyn_u_ops : Locals -> Bundle -> Bundle;
  compute_Lij : Locals -> Bundle -> Bundle;
  (** [compute_Mij(alphaval=..., ...)] also returns the array [magS] *)
  compute_Mij : Q -> Locals -> Bundle -> Bundle * array n;
  (** at the call of [lagrange_average], [vars()] also holds [alpha] and
      [magS] *)
  lagrange_average : Q -> array n -> Locals -> Bundle -> Bundle
}.

Context {sub : Substrate}.

(** [bc.apply(v)]: the marked entries of [v] take the prescribed value. *)
Definition bc_apply (bc : DirichletBC) (v : array n) : array n :=
  foldr (fun i acc => vinsert i (boundary_value (value bc) i) acc) v
        (boundary_dofs (user_sub_domain bc)).

(** [[bc.apply(v) for bc in bcs]] *)
Definition apply_bcs (bcs : list DirichletBC) (v : array n) : array n :=
  fold_left (fun acc bc => bc_apply bc acc) bcs v.

(** [[DirichletBC(CG1, bc.value(), bc.user_sub_domain()) for bc in bcs]] *)
Definition to_CG1 (bcs : list DirichletBC) : list DirichletBC :=
  map (fun bc => mkDirichletBC CG1space (value bc) (user_sub_domain bc)) bcs.

(** The loop of [les_setup] over [u_components] that fills [bcs_u_CG1]. *)
Fixpoint make_bcs_u_CG1 (comps : list string) (bcs : gmap string (list DirichletBC))
    (acc : gmap string (list DirichletBC)) : result (gmap string (list DirichletBC)) :=
  match comps with
  | [] => OK acc
  | ui :: rest =>
      bcs_ui ← getitem bcs ui;
      make_bcs_u_CG1 rest bcs (<[ui := to_CG1 bcs_ui]> acc)
  end.

(** ** [les_setup] *)

Definition les_setup (u_ : Velocity) (mesh : Mesh)
    (assemble_matrix : nat -> matrix n)
    (nut_krylov_solver : gmap string string)
    (u_components : list string) (bcs : gmap string (list DirichletBC))
    : Setup Bundle :=
  let dim := geometry_dim mesh in
  (* delta = pow(CellVolume(mesh), 1./dim) *)
  _ ← lift (if (dim =? 0)%nat then Raise ZeroDivisionError else OK tt);
  delta_CG1_sq ← new_Function (project_delta mesh);
  let delta_CG1_sq := set_local delta_CG1_sq (array_sq (values delta_CG1_sq)) in
  Cs ← new_Function array_zero;
  bcs_u0 ← lift (getitem bcs "u0");
  let bcs_nut := derived_bcs bcs_u0 u_ in
  nut_fn ← new_Function array_zero;
  let nut_ := mkCG1Function nut_fn bcs_nut nut_krylov_solver true in
  bcs_u_CG1 ← lift (make_bcs_u_CG1 u_components bcs ∅);
  u_CG1 ← new_Functions dim;
  u_filtered ← new_Functions dim;
  dummy ← new_Function array_zero;
  G_under ← new_Function (assemble_test mesh);
  inv ← lift (scalar_div 1 (values G_under));
  let G_under := set_local G_under inv in
  let G_matr := assemble_mass mesh in
  Lij ← new_Functions (dim * dim);
  Mij ← new_Functions (dim * dim);
  Sijcomps ← new_Functions (dim * dim);
  Sijfcomps ← new_Functions (dim * dim);
  let Sijmats := map assemble_matrix (seq 0 dim) in
  let '(tensdim, uiuj_pairs) :=
    if (dim =? 3)%nat
    then (6%nat, [(0,0); (0,1); (0,2); (1,1); (1,2); (2,2)]%nat)
    else (3%nat, [(0,0); (0,1); (1,1)]%nat) in
  let Sij_sol := KrylovSolver_new "cg" "default" in
  let Sij_sol := set_preconditioner_structure "same_nonzero_pattern" Sij_sol in
  let Sij_sol := set_error_on_nonconvergence false Sij_sol in
  let Sij_sol := set_monitor_convergence false Sij_sol in
  let Sij_sol := set_report false Sij_sol in
  JLM ← new_Function array_zero;
  let JLM := set_local JLM (array_add_scalar (values JLM) (1 # 10 ^ 32)) in
  JMM ← new_Function array_zero;
  let JMM := set_local JMM (array_add_scalar (values JMM) 1) in
  mret (mkBundle nut_ bcs_nut delta_CG1_sq Cs u_CG1 u_filtered Lij Mij
          Sijcomps Sijfcomps Sijmats JLM JMM dim tensdim G_matr G_under dummy
          uiuj_pairs Sij_sol bcs_u_CG1).


(** ** The helpers of [DynamicModules] *)

(** Modelled from the spec: one pass of [DynamicModules.tophatfilter].  The
    weighted nodal integral of the current field against the test functions
    is the product with the mass matrix [G_matr]; it is multiplied pointwise
    by the lumped-mass inverse [G_under] and blended with the previous value
    by [weight] ([weight = 1] is the pure filter). *)
Definition tophat_pass (G_matr : matrix n) (G_under : array n) (weight : Q)
    (v : array n) : array n :=
  blend weight (array_mul (matvec G_matr v) G_under) v.

(** Modelled from the spec: [DynamicModules.tophatfilter(unfiltered, filtered,
    N, weight)] applies the pass [N] times to the values of [unfiltered] and
    leaves the result in [filtered]; [N = 0] hands the input on unchanged.
    The function returned is the object [filtered] after the call. *)
Definition tophatfilter (unfiltered filtered : Function n) (N : nat) (weight : Q)
    (G_matr : matrix n) (G_under : Function n) : Function n :=
  set_local filtered
    (Nat.iter N (tophat_pass G_matr (values G_under) weight) (values unfiltered)).

(** Modelled from the spec: the write set of a [DynamicModules] helper.  The
    helpers overwrite, in place, the work buffers of the bundle (the
    interpolated and filtered velocities, the tensor fields and the scratch
    function); [absorb_work b' b] is [b] with those buffers holding the
    values they have in [b'].  The precomputed operators are read only. *)
Definition absorb_work (b' b : Bundle) : Bundle :=
  mkBundle (nut_ b) (bcs_nut b) (delta_CG1_sq b) (Cs b)
    (overwrite (u_CG1 b) (u_CG1 b')) (overwrite (u_filtered b) (u_filtered b'))
    (overwrite (Lij b) (Lij b')) (overwrite (Mij b) (Mij b'))
    (overwrite (Sijcomps b) (Sijcomps b')) (overwrite (Sijfcomps b) (Sijfcomps b'))
    (Sijmats b) (JLM b) (JMM b) (dim b) (tensdim b) (G_matr b) (G_under b)
    (set_local (dummy b) (values (dummy b')))
    (uiuj_pairs b) (Sij_sol b) (bcs_u_CG1 b).

(** Modelled from the spec: [lagrange_average(J1=JLM, J2=JMM, ...)] moreover
    updates the two memory fields in place. *)
Definition absorb_J (b' b : Bundle) : Bundle :=
  let b := absorb_work b' b in
  mkBundle (nut_ b) (bcs_nut b) (delta_CG1_sq b) (Cs b) (u_CG1 b) (u_filtered b)
    (Lij b) (Mij b) (Sijcomps b) (Sijfcomps b) (Sijmats b)
    (set_local (JLM b) (values (JLM b'))) (set_local (JMM b) (values (JMM b')))
    (dim b) (tensdim b) (G_matr b) (G_under b) (dummy b)
    (uiuj_pairs b) (Sij_sol b) (bcs_u_CG1 b).

(** ** [les_update] *)

(** Assignments to the two fields [les_update] itself writes. *)
Definition with_Cs (f : Function n) (b : Bundle) : Bundle :=
  mkBundle (nut_ b) (bcs_nut b) (delta_CG1_sq b) f (u_CG1 b) (u_filtered b)
    (Lij b) (Mij b) (Sijcomps b) (Sijfcomps b) (Sijmats b) (JLM b) (JMM b)
    (dim b) (tensdim b) (G_matr b) (G_under b) (dummy b)
    (uiuj_pairs b) (Sij_sol b) (bcs_u_CG1 b).

Definition with_nut (f : CG1Function) (b : Bundle) : Bundle :=
  mkBundle f (bcs_nut b) (delta_CG1_sq b) (Cs b) (u_CG1 b) (u_filtered b)
    (Lij b) (Mij b) (Sijcomps b) (Sijfcomps b) (Sijmats b) (JLM b) (JMM b)
    (dim b) (tensdim b) (G_matr b) (G_under b) (dummy b)
    (uiuj_pairs b) (Sij_sol b) (bcs_u_CG1 b).

(** The test-filter ratio: the local [alpha = 2.0] of [les_update]. *)
Definition alpha : Q := 2.

(** The ceiling of the clip, [0.09]. *)
Definition Cs_ceiling : Q := 9 # 100.

(** Lines 109-110, the skip step: [nut_()]. *)
Definition refresh_nut (l : Locals) (b : Bundle) : Bundle :=
  with_nut (set_fn (CG1Function_call (values (Cs b)) (u_ l) (nut_ b)) (nut_ b)) b.

(** Lines 114-118: interpolation and filtering of the velocity, and the
    tensor [Lij]. *)
Definition les_velocity_Lij (l : Locals) (b : Bundle) : Bundle :=
  let b := absorb_work (dyn_u_ops l b) b in
  absorb_work (compute_Lij l b) b.

(** Lines 114-125: the above, the tensor [Mij], and the Lagrangian average
    of [JLM] and [JMM].  The result is the bundle after these calls and the
    array [magS]. *)
Definition les_average (l : Locals) (b : Bundle) : Bundle * array n :=
  let b := les_velocity_Lij l b in
  let '(bM, magS) := compute_Mij alpha l b in
  let b := absorb_work bM b in
  let b := absorb_J (lagrange_average alpha magS l b) b in
  (b, magS).

(** Lines 132-133: [Cs.vector().set_local((JLM/JMM).clip(max=0.09))]. *)
Definition update_Cs (b : Bundle) : result Bundle :=
  ratio ← array_div (values (JLM b)) (values (JMM b));
  mret (with_Cs (set_local (Cs b) (clip_max ratio Cs_ceiling)) b).

(** Line 134: [tophatfilter(unfiltered=Cs, filtered=Cs, N=2, weight=1.)];
    both arguments are the one object [Cs]. *)
Definition smooth_Cs (b : Bundle) : Bundle :=
  with_Cs (tophatfilter (Cs b) (Cs b) 2 1 (G_matr b) (G_under b)) b.

(** Lines 137-139: [nut_] is set to [Cs * delta_CG1_sq * magS] and its
    boundary conditions are applied. *)
Definition update_nut (magS : array n) (b : Bundle) : Bundle :=
  let nut := set_fn (array_mul (array_mul (values (Cs b)) (values (delta_CG1_sq b))) magS)
                    (nut_ b) in
  with_nut (set_fn (apply_bcs (fn_bcs nut) (values (fn nut))) nut) b.

Definition les_update (l : Locals) (b : Bundle) : result Bundle :=
  Cs_comp_step ← getitem (DynamicSmagorinsky l) "Cs_comp_step";
  r ← py_mod (tstep l) Cs_comp_step;
  if negb (r =? 0)%Z then
    mret (refresh_nut l b)
  else
    let '(b, magS) := les_average l b in
    b ← update_Cs b;
    mret (update_nut magS (smooth_Cs b)).

(** The solver's time loop: one call of [les_update] per entry. *)
Fixpoint les_run (ls : list Locals) (b : Bundle) : result Bundle :=
  match ls with
  | [] => OK b
  | l :: rest => b' ← les_update l b; les_run rest b'
  end.

(** ** Notions used in the statements *)

(** The step index is one on which the coefficient is recomputed. *)
Definition full_recompute (l : Locals) : Prop :=
  exists K : Z, DynamicSmagorinsky l !! "Cs_comp_step" = Some K /\
                K <> 0%Z /\ (tstep l mod K)%Z = 0%Z.

Definition skip_step (l : Locals) : Prop :=
  exists K : Z, DynamicSmagorinsky l !! "Cs_comp_step" = Some K /\
                K <> 0%Z /\ (tstep l mod K)%Z <> 0%Z.

(** The operators and descriptors built at setup. *)
Definition precomputed (b : Bundle) :=
  (delta_CG1_sq b, Sijmats b, G_matr b, G_under b, bcs_u_CG1 b, bcs_nut b,
   fn_bcs (nut_ b)).

Definition row_sum (row : array n) : Q := foldr Qplus 0 (vec_to_list row).

(** The filter is an averaging: the mass matrix and the lumped-mass inverse
    are non-negative, and the normalised weights of a row sum to at most
    one.  For the hat functions of CG1, which are non-negative and sum to
    one, [G_under = 1 / assemble(TestFunction(CG1)*dx)] makes each row sum
    to exactly one. *)
Definition tophat_averaging (b : Bundle) : Prop :=
  (forall i j : fin n, 0 <= (G_matr b !!! i) !!! j) /\
  (forall i : fin n, 0 <= values (G_under b) !!! i) /\
  (forall i : fin n, values (G_under b) !!! i * row_sum (G_matr b !!! i) <= 1).

End DynamicLagrangian.

Arguments DirichletBC : clear implicits.
Arguments CG1Function : clear implicits.
Arguments Bundle : clear implicits.
Arguments Locals : clear implicits.
Arguments Substrate : clear implicits.

(** The substrate [S] with [f] in the place of its [Mij] builder. *)
Definition with_compute_Mij {n : nat} {Mesh Velocity BCValue SubDomain : Type}
    (f : Q -> Locals Velocity -> Bundle n BCValue SubDomain ->
         Bundle n BCValue SubDomain * array n)
    (S : Substrate n Mesh Velocity BCValue SubDomain)
    : Substrate n Mesh Velocity BCValue SubDomain := {|
  geometry_dim := geometry_dim (Substrate := S);
  project_delta := project_delta (Substrate := S);
  assemble_test := assemble_test (Substrate := S);
  assemble_mass := assemble_mass (Substrate := S);
  boundary_dofs := boundary_dofs (Substrate := S);
  boundary_value := boundary_value (Substrate := S);
  derived_bcs := derived_bcs (Substrate := S);
  CG1Function_call := CG1Function_call (Substrate := S);
  dyn_u_ops := dyn_u_ops (Substrate := S);
  compute_Lij := compute_Lij (Substrate := S);
  compute_Mij := f;
  lagrange_average := lagrange_average (Substrate := S)
|}.

(** ** A concrete mesh

    One triangle of area 1/2 in the plane: three degrees of freedom, the
    mass matrix [area/12 * (1 + delta_ij)] and the nodal integrals [area/3].
    The helpers of the toy substrate leave the work buffers alone; the
    Lagrangian average answers with the arrays [J1] and [J2], and the [Mij]
    builder with the array [mags] whatever ratio it is called with. *)

Definition toy_mass : matrix 3 :=
  [# [# 1#12; 1#24; 1#24]; [# 1#24; 1#12; 1#24]; [# 1#24; 1#24; 1#12] ].

Definition toy_bundle_J (J1 J2 : array 3)
    (b : Bundle 3 Q (list (fin 3))) : Bundle 3 Q (list (fin 3)) :=
  mkBundle (nut_ b) (bcs_nut b) (delta_CG1_sq b) (Cs b) (u_CG1 b) (u_filtered b)
    (Lij b) (Mij b) (Sijcomps b) (Sijfcomps b) (Sijmats b)
    (set_local (JLM b) J1) (set_local (JMM b) J2)
    (dim b) (tensdim b) (G_matr b) (G_under b) (dummy b)
    (uiuj_pairs b) (Sij_sol b) (bcs_u_CG1 b).

Definition toy (J1 J2 mags : array 3) : Substrate 3 nat unit Q (list (fin 3)) := {|
  geometry_dim := fun mesh => mesh;
  project_delta := fun _ => [# 1; 1; 1];
  assemble_test := fun _ => [# 1#6; 1#6; 1#6];
  assemble_mass := fun _ => toy_mass;
  boundary_dofs := fun sd => sd;
  boundary_value := fun v _ => v;
  derived_bcs := fun bcs _ =>
    map (fun bc => mkDirichletBC CG1space 0 (user_sub_domain bc)) bcs;
  CG1Function_call := fun cs _ f =>
    fold_left (fun acc bc =>
                 foldr (fun i a => vinsert i (value bc) a) acc (user_sub_domain bc))
              (fn_bcs f) cs;
  dyn_u_ops := fun _ b => b;
  compute_Lij := fun _ b => b;
  compute_Mij := fun _ _ b => (b, mags);
  lagrange_average := fun _ _ _ b => toy_bundle_J J1 J2 b
|}.

Definition toy_bcs : gmap string (list (DirichletBC Q (list (fin 3)))) :=
  <["u0" := [mkDirichletBC Vspace 1 [0%fin]]]>
  (<["u1" := [mkDirichletBC Vspace 0 [0%fin]]]> ∅).

Definition toy_setup (J1 J2 mags : array 3) : result (Bundle 3 Q (list (fin 3)) * nat) :=
  les_setup (sub := toy J1 J2 mags) tt 2%nat (fun _ => toy_mass) ∅
    ["u0"; "u1"]%string toy_bcs 0%nat.

Definition toy_locals (step K : Z) : Locals unit :=
  mkLocals tt ["u0"; "u1"]%string (1 # 100) step (<["Cs_comp_step" := K]> ∅) tt.

(** The bundle [les_setup] returns on the toy mesh. *)
Definition toy_bundle : Bundle 3 Q (list (fin 3)) :=
  let wall := [mkDirichletBC CG1space 0 [0%fin]] in
  let zero := [# 0; 0; 0] in
  mkBundle
    (mkCG1Function (mkFunction 2 zero) wall ∅ true) wall
    (mkFunction 0 [# 1; 1; 1]) (mkFunction 1 zero)
    [mkFunction 3 zero; mkFunction 4 zero]
    [mkFunction 5 zero; mkFunction 6 zero]
    [mkFunction 9 zero; mkFunction 10 zero; mkFunction 11 zero; mkFunction 12 zero]
    [mkFunction 13 zero; mkFunction 14 zero; mkFunction 15 zero; mkFunction 16 zero]
    [mkFunction 17 zero; mkFunction 18 zero; mkFunction 19 zero; mkFunction 20 zero]
    [mkFunction 21 zero; mkFunction 22 zero; mkFunction 23 zero; mkFunction 24 zero]
    [toy_mass; toy_mass]
    (mkFunction 25 [# 1 # 10 ^ 32; 1 # 10 ^ 32; 1 # 10 ^ 32])
    (mkFunction 26 [# 1; 1; 1])
    2 3 toy_mass (mkFunction 8 [# 6; 6; 6]) (mkFunction 7 zero)
    [(0, 0); (0, 1); (1, 1)]%nat
    (mkKrylovSolver "cg" "default" "same_nonzero_pattern" false false false)
    (<["u0" := [mkDirichletBC CG1space 1 [0%fin]]]>
     (<["u1" := [mkDirichletBC CG1space 0 [0%fin]]]> ∅)).

(** Two instances of the toy substrate: one whose Lagrangian average yields
    the ratio 1/10000 at every node, one whose ratios are 100, 1/100 and -5. *)
Definition toy_small : Substrate 3 nat unit Q (list (fin 3)) :=
  toy [# 1 # 10000; 1 # 10000; 1 # 10000] [# 1; 1; 1] [# 1; 1; 1].

Definition toy_wild : Substrate 3 nat unit Q (list (fin 3)) :=
  toy [# 100; 1 # 100; -5] [# 1; 1; 1] [# 1; 1; 1].

(** The bundles one full-recompute step (step index 0, interval 1) makes of
    [toy_bundle] under the two substrates. *)
Definition toy_small_next : Bundle 3 Q (list (fin 3)) :=
  Eval vm_compute in
    match les_update (sub := toy_small) (toy_locals 0 1) toy_bundle with
    | OK b => b
    | Raise _ => toy_bundle
    end.

Definition toy_wild_next : Bundle 3 Q (list (fin 3)) :=
  Eval vm_compute in
    match les_update (sub := toy_wild) (toy_locals 0 1) toy_bundle with
    | OK b => b
    | Raise _ => toy_bundle
    end.

(** [toy_bundle] with the ratios -1/2, 1/20 and 5 in its memory fields. *)
Definition toy_mixed : Bundle 3 Q (list (fin 3)) :=
  toy_bundle_J [# -1; 1 # 20; 5] [# 2; 1; 1] toy_bundle.

(** Three calls of [les_update] with the recompute interval 2: a full step,
    a skip step, a full step. *)
Definition toy_three_steps : list (Locals unit) :=
  [toy_locals 0 2; toy_locals 1 2; toy_locals 2 2].

Definition toy_after_three : Bundle 3 Q (list (fin 3)) :=
  Eval vm_compute in
    match les_run (sub := toy_wild) toy_three_steps toy_bundle with
    | OK b => b
    | Raise _ => toy_bundle
    end.

(** ** Further notions

    The functions of a bundle in the order [les_setup] allocates them. *)
Definition functions_of {n : nat} {BCValue SubDomain : Type}
    (b : Bundle n BCValue SubDomain) : list (Function n) :=
  [delta_CG1_sq b; Cs b; fn (nut_ b)] ++ u_CG1 b ++ u_filtered b ++
  [dummy b; G_under b] ++ Lij b ++ Mij b ++ Sijcomps b ++ Sijfcomps b ++
  [JLM b; JMM b].

(** A node no boundary condition of the list marks. *)
Definition unmarked {n : nat} {Mesh Velocity BCValue SubDomain : Type}
    {sub : Substrate n Mesh Velocity BCValue SubDomain}
    (bcs : list (DirichletBC BCValue SubDomain)) (i : fin n) : Prop :=
  Forall (fun bc => i ∉ boundary_dofs (user_sub_domain bc)) bcs.

(** The dict of boundary conditions of the toy mesh without its ["u1"]
    entry, and a second condition for the viscosity on the toy mesh. *)
Definition toy_bcs_no_u1 : gmap string (list (DirichletBC Q (list (fin 3)))) :=
  <["u0" := [mkDirichletBC Vspace 1 [0%fin]]]> ∅.

(** The bundle [les_setup] returns for a mesh of dimension one. *)
Definition toy_bundle_1D : Bundle 3 Q (list (fin 3)) :=
  Eval vm_compute in
    match les_setup (sub := toy_small) tt 1%nat (fun _ => toy_mass) ∅
            ["u0"; "u1"]%string toy_bcs 0%nat with
    | OK (b, _) => b
    | Raise _ => toy_bundle
    end.

(** Two skip steps with the recompute interval 3, and the bundle they make
    of [toy_bundle]. *)
Definition toy_two_skips : list (Locals unit) := [toy_locals 1 3; toy_locals 2 3].

Definition toy_after_skips : Bundle 3 Q (list (fin 3)) :=
  Eval vm_compute in
    match les_run (sub := toy_small) toy_two_skips toy_bundle with
    | OK b => b
    | Raise _ => toy_bundle
    end.

(** ** The flooring of the Lagrangian average

    Modelled from the spec: the end of [DynamicModules.lagrange_average].
    Both memory fields "must remain strictly positive (negative or zero
    values are floored)": an entry that is negative or zero is replaced by
    the floor, every other entry stays as it is.  The spec gives the floors
    no value; they are the parameters [floor1] (for [J1]) and [floor2] (for
    [J2]). *)
Definition floor_nonpositive {n : nat} (floor : Q) (a : array n) : array n :=
  vmap (fun x => if Qle_bool x 0 then floor else x) a.

(** Modelled from the spec: the flooring applied to the two memory fields
    of a bundle, [JLM] with [floor1] and [JMM] with [floor2]. *)
Definition floor_J {n : nat} {BCValue SubDomain : Type} (floor1 floor2 : Q)
    (b : Bundle n BCValue SubDomain) : Bundle n BCValue SubDomain :=
  mkBundle (nut_ b) (bcs_nut b) (delta_CG1_sq b) (Cs b) (u_CG1 b) (u_filtered b)
    (Lij b) (Mij b) (Sijcomps b) (Sijfcomps b) (Sijmats b)
    (set_local (JLM b) (floor_nonpositive floor1 (values (JLM b))))
    (set_local (JMM b) (floor_nonpositive floor2 (values (JMM b))))
    (dim b) (tensdim b) (G_matr b) (G_under b) (dummy b)
    (uiuj_pairs b) (Sij_sol b) (bcs_u_CG1 b).

(** Modelled from the spec: a substrate whose [lagrange_average] ends with
    the flooring; what precedes the flooring is the average of [S]. *)
Definition with_floored_average {n : nat} {Mesh Velocity BCValue SubDomain : Type}
    (floor1 floor2 : Q) (S : Substrate n Mesh Velocity BCValue SubDomain)
    : Substrate n Mesh Velocity BCValue SubDomain := {|
  geometry_dim := geometry_dim (Substrate := S);
  project_delta := project_delta (Substrate := S);
  assemble_test := assemble_test (Substrate := S);
  assemble_mass := assemble_mass (Substrate := S);
  boundary_dofs := boundary_dofs (Substrate := S);
  boundary_value := boundary_value (Substrate := S);
  derived_bcs := derived_bcs (Substrate := S);
  CG1Function_call := CG1Function_call (Substrate := S);
  dyn_u_ops := dyn_u_ops (Substrate := S);
  compute_Lij := compute_Lij (Substrate := S);
  compute_Mij := compute_Mij (Substrate := S);
  lagrange_average := fun alphaval magS l b =>
    floor_J floor1 floor2 (lagrange_average (Substrate := S) alphaval magS l b)
|}.

(** ** Further concrete inputs

    A triangle of area 22.875.  Its mass matrix has the entries 61/16 and
    61/32, and the nodal integral of every test function is 61/8 = 7.625;
    all of these are binary64 numbers.  Line 62 of [les_setup] stores in
    [G_under] the binary64 quotient [1./7.625], which is the rational
    below and lies above 8/61. *)
Definition float_mass : matrix 3 :=
  [# [# 61 # 16; 61 # 32; 61 # 32]; [# 61 # 32; 61 # 16; 61 # 32];
     [# 61 # 32; 61 # 32; 61 # 16] ].

Definition float_reciprocal : Q := 4725088133634619 # 2 ^ 55.

Definition float_bundle : Bundle 3 Q (list (fin 3)) :=
  let b := toy_bundle in
  mkBundle (nut_ b) (bcs_nut b) (delta_CG1_sq b) (Cs b) (u_CG1 b) (u_filtered b)
    (Lij b) (Mij b) (Sijcomps b) (Sijfcomps b) (Sijmats b) (JLM b) (JMM b)
    (dim b) (tensdim b) float_mass
    (set_local (G_under b) [# float_reciprocal; float_reciprocal; float_reciprocal])
    (dummy b) (uiuj_pairs b) (Sij_sol b) (bcs_u_CG1 b).

(** The toy substrate whose Lagrangian average yields the ratio 100 at every
    node, and the bundle one full-recompute step makes of [float_bundle]. *)
Definition toy_hundred : Substrate 3 nat unit Q (list (fin 3)) :=
  toy [# 100; 100; 100] [# 1; 1; 1] [# 1; 1; 1].

Definition float_next : Bundle 3 Q (list (fin 3)) :=
  Eval vm_compute in
    match les_update (sub := toy_hundred) (toy_locals 0 1) float_bundle with
    | OK b => b
    | Raise _ => float_bundle
    end.

(** The toy substrate whose [Mij] builder answers with the ratio it was
    called with, at every node of [magS]; a configuration dict that carries
    an entry ["alpha"] of 3 beside the recompute interval 1; and the bundle
    the step makes of [toy_bundle]. *)
Definition toy_echo : Substrate 3 nat unit Q (list (fin 3)) :=
  with_compute_Mij (fun alphaval _ b => (b, [# alphaval; alphaval; alphaval]))
    toy_small.

Definition toy_locals_alpha : Locals unit :=
  mkLocals tt ["u0"; "u1"]%string (1 # 100) 0
    (<["alpha" := 3%Z]> (<["Cs_comp_step" := 1%Z]> ∅)) tt.

Definition toy_echo_next : Bundle 3 Q (list (fin 3)) :=
  Eval vm_compute in
    match les_update (sub := toy_echo) toy_locals_alpha toy_bundle with
    | OK b => b
    | Raise _ => toy_bundle
    end.

(** The toy substrate with a floored average: before the flooring [JMM] is
    0, -3 and 2; the floors are 1e-32. *)
Definition toy_floored : Substrate 3 nat unit Q (list (fin 3)) :=
  with_floored_average (1 # 10 ^ 32) (1 # 10 ^ 32)
    (toy [# 1; 1; 1] [# 0; -3; 2] [# 1; 1; 1]).

(** * Properties *)

(** ** Arrays *)

Section ArrayFacts.
Context {n : nat}.
Implicit Types a b v w : array n.

Lemma is_zero_false (x : Q) : is_zero x = false <-> ~ x == 0.
Proof.
  unfold is_zero, Qeq. simpl. rewrite Z.mul_1_r, Z.eqb_neq. tauto.
Qed.

Lemma existsb_false_Forall {A : Type} (p : A -> bool) (xs : list A) :
  existsb p xs = false <-> Forall (fun x => p x = false) xs.
Proof.
  induction xs as [|x xs IH]; simpl.
  - split; [constructor | reflexivity].
  - rewrite orb_false_iff, IH, Forall_cons. tauto.
Qed.

Lemma array_div_OK a b :
  (forall i, ~ b !!! i == 0) -> array_div a b = OK (vzip_with Qdiv a b).
Proof.
  intros Hb. unfold array_div.
  assert (E : existsb is_zero (vec_to_list b) = false).
  { apply existsb_false_Forall, Forall_vlookup. intros i.
    apply is_zero_false, Hb. }
  now rewrite E.
Qed.

Lemma array_div_inv a b r :
  array_div a b = OK r ->
  r = vzip_with Qdiv a b /\ forall i, ~ b !!! i == 0.
Proof.
  unfold array_div. destruct (existsb is_zero (vec_to_list b)) eqn:E; [discriminate|].
  intros [= <-]. split; [reflexivity|]. intros i.
  apply is_zero_false.
  pose proof (proj1 (existsb_false_Forall _ _) E) as HF.
  rewrite Forall_vlookup in HF. apply HF.
Qed.

Lemma array_div_lookup a b r i :
  array_div a b = OK r -> r !!! i = a !!! i / b !!! i.
Proof.
  intros [-> _]%array_div_inv. apply vlookup_zip_with.
Qed.

Lemma clip_max_lookup a c i : clip_max a c !!! i = Qmin (a !!! i) c.
Proof. unfold clip_max. now rewrite vlookup_map. Qed.

Lemma clip_max_le a c i : clip_max a c !!! i <= c.
Proof. rewrite clip_max_lookup. apply Q.le_min_r. Qed.

(** Below the ceiling the clip hands the entry on as it is. *)
Lemma Qmin_below (x c : Q) : x <= c -> Qmin x c = x.
Proof.
  intros Hx. unfold Qmin, GenericMinMax.gmin.
  destruct (x ?= c) eqn:E; try reflexivity.
  rewrite <- Qgt_alt in E. exfalso. apply (Qlt_not_le _ _ E Hx).
Qed.

Lemma Qmin_above (x c : Q) : c < x -> Qmin x c = c.
Proof.
  intros Hx. unfold Qmin, GenericMinMax.gmin.
  rewrite Qgt_alt in Hx. now rewrite Hx.
Qed.

Lemma array_mul_lookup a b i : array_mul a b !!! i = a !!! i * b !!! i.
Proof. unfold array_mul. apply vlookup_zip_with. Qed.

Lemma vmap_vreplicate {A B : Type} (f : A -> B) (x : A) (m : nat) :
  vmap f (vreplicate m x) = vreplicate m (f x).
Proof. induction m as [|m IH]; simpl; [reflexivity | now rewrite IH]. Qed.

(** A weighted sum with non-negative weights of entries bounded by [c] is
    bounded by [c] times the sum of the weights. *)
Lemma dot_le_row_sum w v c :
  (forall j, 0 <= w !!! j) -> (forall j, v !!! j <= c) ->
  dot w v <= c * row_sum w.
Proof.
  unfold dot, row_sum. clear.
  induction w as [|x m w IH]; inv_vec v; simpl.
  - intros _ _. lra.
  - intros y v Hw Hv.
    specialize (IH v (fun j => Hw (FS j)) (fun j => Hv (FS j))).
    pose proof (Hw 0%fin) as Hx. pose proof (Hv 0%fin) as Hy. simpl in Hx, Hy.
    assert (x * y <= c * x) by nra.
    lra.
Qed.

Lemma matvec_lookup (A : matrix n) v i : matvec A v !!! i = dot (A !!! i) v.
Proof. unfold matvec. now rewrite vlookup_map. Qed.

Lemma blend_lookup weight a b i :
  blend weight a b !!! i = weight * a !!! i + (1 - weight) * b !!! i.
Proof. unfold blend. now rewrite vlookup_zip_with. Qed.

End ArrayFacts.

Lemma row_sum_nonneg {n : nat} (w : array n) :
  (forall j, 0 <= w !!! j) -> 0 <= row_sum w.
Proof.
  unfold row_sum. induction w as [|x m w IH]; simpl; intros Hw; [lra|].
  pose proof (Hw 0%fin) as Hx. simpl in Hx.
  specialize (IH (fun j => Hw (FS j))). lra.
Qed.

(** ** The per-step update *)

Section UpdateFacts.
Context {n : nat} {Mesh Velocity BCValue SubDomain : Type}.
Context {sub : Substrate n Mesh Velocity BCValue SubDomain}.
Implicit Types (b : Bundle n BCValue SubDomain) (l : Locals Velocity).
Implicit Types (i : fin n) (v : array n).

(** The two branches of [les_update]. *)
Lemma les_update_skip l b : skip_step l -> les_update l b = OK (refresh_nut l b).
Proof.
  intros (K & HK & HK0 & Hmod). unfold les_update, getitem, py_mod.
  rewrite HK. simpl.
  apply Z.eqb_neq in HK0. rewrite HK0. simpl.
  apply Z.eqb_neq in Hmod. now rewrite Hmod.
Qed.

Lemma les_update_full l b :
  full_recompute l ->
  les_update l b =
    (b' ← update_Cs (les_average l b).1;
     mret (update_nut (les_average l b).2 (smooth_Cs b'))).
Proof.
  intros (K & HK & HK0 & Hmod). unfold les_update, getitem, py_mod.
  rewrite HK. simpl.
  apply Z.eqb_neq in HK0. rewrite HK0. simpl.
  rewrite Hmod. simpl. now destruct (les_average l b).
Qed.

Lemma update_Cs_inv b b' :
  update_Cs b = OK b' ->
  exists ratio, array_div (values (JLM b)) (values (JMM b)) = OK ratio /\
                b' = with_Cs (set_local (Cs b) (clip_max ratio Cs_ceiling)) b.
Proof.
  unfold update_Cs.
  destruct (array_div (values (JLM b)) (values (JMM b))) as [ratio|e]; simpl;
    [|discriminate].
  intros [= <-]. now exists ratio.
Qed.

Lemma les_update_full_inv l b b' :
  full_recompute l -> les_update l b = OK b' ->
  exists ratio,
    array_div (values (JLM (les_average l b).1)) (values (JMM (les_average l b).1))
      = OK ratio /\
    b' = update_nut (les_average l b).2
           (smooth_Cs (with_Cs (set_local (Cs (les_average l b).1)
                                          (clip_max ratio Cs_ceiling))
                               (les_average l b).1)).
Proof.
  intros Hfull. rewrite (les_update_full _ _ Hfull).
  destruct (update_Cs (les_average l b).1) as [b1|e] eqn:E; simpl; [|discriminate].
  intros [= <-]. apply update_Cs_inv in E as (ratio & Hdiv & ->).
  now exists ratio.
Qed.

(** What the helpers leave alone. *)
Lemma les_velocity_Lij_frame l b :
  precomputed (les_velocity_Lij l b) = precomputed b /\
  Cs (les_velocity_Lij l b) = Cs b /\ nut_ (les_velocity_Lij l b) = nut_ b /\
  Sij_sol (les_velocity_Lij l b) = Sij_sol b.
Proof. repeat split. Qed.

Lemma les_average_frame l b :
  precomputed (les_average l b).1 = precomputed b /\
  Cs (les_average l b).1 = Cs b /\ nut_ (les_average l b).1 = nut_ b /\
  Sij_sol (les_average l b).1 = Sij_sol b.
Proof.
  unfold les_average.
  destruct (compute_Mij alpha l (les_velocity_Lij l b)) as [bM magS].
  repeat split.
Qed.

Lemma les_update_frame l b b' :
  les_update l b = OK b' ->
  precomputed b' = precomputed b /\ Sij_sol b' = Sij_sol b.
Proof.
  unfold les_update.
  destruct (getitem _ _) as [K|e]; simpl; [|discriminate].
  destruct (py_mod _ _) as [r|e]; simpl; [|discriminate].
  destruct (negb _).
  - intros [= <-]. split; reflexivity.
  - pose proof (les_average_frame l b) as (Hp & _ & Hn & Hs).
    destruct (les_average l b) as [bA magS]. simpl in *.
    destruct (update_Cs bA) as [b1|e] eqn:E; simpl; [|discriminate].
    intros [= <-]. apply update_Cs_inv in E as (ratio & _ & ->).
    split; [rewrite <- Hp | rewrite <- Hs]; reflexivity.
Qed.

Lemma les_run_frame ls b b' :
  les_run ls b = OK b' ->
  precomputed b' = precomputed b /\ Sij_sol b' = Sij_sol b.
Proof.
  revert b. induction ls as [|l ls IH]; simpl; intros b.
  - intros [= <-]. split; reflexivity.
  - destruct (les_update l b) as [b1|e] eqn:E; simpl; [|discriminate].
    intros Hrun. apply IH in Hrun as [-> ->]. now apply les_update_frame in E.
Qed.

(** One pass of the pure filter keeps an upper bound [c >= 0] when the
    filter is an averaging. *)
Lemma tophat_pass_le (G : matrix n) (g : array n) (c : Q) v :
  0 <= c ->
  (forall i j, 0 <= (G !!! i) !!! j) ->
  (forall i, 0 <= g !!! i) ->
  (forall i, g !!! i * row_sum (G !!! i) <= 1) ->
  (forall i, v !!! i <= c) ->
  forall i, tophat_pass G g 1 v !!! i <= c.
Proof.
  intros Hc HG Hg Hsum Hv i. unfold tophat_pass.
  rewrite blend_lookup, array_mul_lookup, matvec_lookup.
  pose proof (dot_le_row_sum (G !!! i) v c (HG i) Hv) as Hdot.
  pose proof (Hg i) as Hgi. pose proof (Hsum i) as Hsi.
  pose proof (row_sum_nonneg (G !!! i) (HG i)) as Hrow.
  nra.
Qed.

Lemma tophatfilter_le (f f' : Function n) (N : nat) (G : matrix n)
    (g : Function n) (c : Q) :
  0 <= c ->
  (forall i j, 0 <= (G !!! i) !!! j) ->
  (forall i, 0 <= values g !!! i) ->
  (forall i, values g !!! i * row_sum (G !!! i) <= 1) ->
  (forall i, values f !!! i <= c) ->
  forall i, values (tophatfilter f f' N 1 G g) !!! i <= c.
Proof.
  intros Hc HG Hg Hsum Hf. unfold tophatfilter. simpl.
  induction N as [|N IH]; simpl; [exact Hf|].
  now apply tophat_pass_le.
Qed.

End UpdateFacts.

(** ** Setup *)

Section SetupFacts.
Context {n : nat} {Mesh Velocity BCValue SubDomain : Type}.
Context {sub : Substrate n Mesh Velocity BCValue SubDomain}.
Implicit Types (b : Bundle n BCValue SubDomain) (l : Locals Velocity).
Implicit Types (bcs : gmap string (list (DirichletBC BCValue SubDomain))).

Lemma new_Functions_spec (k next : nat) :
  new_Functions (n := n) k next = OK (fresh_zeros next k, (next + k)%nat).
Proof.
  revert next. induction k as [|k IH]; intros next; simpl.
  - unfold mret, Setup_ret. now rewrite Nat.add_0_r.
  - unfold mbind, Setup_bind, new_Function at 1. rewrite IH. simpl.
    unfold mret, Setup_ret. do 2 f_equal. lia.
Qed.

Lemma fresh_zeros_length (a k : nat) : length (fresh_zeros (n := n) a k) = k.
Proof. unfold fresh_zeros. now rewrite length_map, length_seq. Qed.

Lemma fresh_zeros_fid (a k : nat) : map fid (fresh_zeros (n := n) a k) = seq a k.
Proof.
  unfold fresh_zeros. rewrite map_map. simpl. apply map_id.
Qed.

(** What a successful setup returns, object by object. *)
Lemma les_setup_inv u_ mesh assemble_matrix nut_krylov_solver u_components bcs
    next b next' :
  les_setup u_ mesh assemble_matrix nut_krylov_solver u_components bcs next
    = OK (b, next') ->
  let d := geometry_dim mesh in
  exists bcs_u0 bcs_CG1 inv,
    d <> 0%nat /\
    getitem bcs "u0" = OK bcs_u0 /\
    make_bcs_u_CG1 u_components bcs ∅ = OK bcs_CG1 /\
    scalar_div 1 (assemble_test mesh) = OK inv /\
    b = mkBundle
          (mkCG1Function (mkFunction (next + 2) array_zero)
             (derived_bcs bcs_u0 u_) nut_krylov_solver true)
          (derived_bcs bcs_u0 u_)
          (mkFunction next (array_sq (project_delta mesh)))
          (mkFunction (next + 1) array_zero)
          (fresh_zeros (next + 3) d)
          (fresh_zeros (next + 3 + d) d)
          (fresh_zeros (next + 5 + 2 * d) (d * d))
          (fresh_zeros (next + 5 + 2 * d + d * d) (d * d))
          (fresh_zeros (next + 5 + 2 * d + 2 * (d * d)) (d * d))
          (fresh_zeros (next + 5 + 2 * d + 3 * (d * d)) (d * d))
          (map assemble_matrix (seq 0 d))
          (mkFunction (next + 5 + 2 * d + 4 * (d * d))
             (array_add_scalar array_zero (1 # 10 ^ 32)))
          (mkFunction (next + 6 + 2 * d + 4 * (d * d))
             (array_add_scalar array_zero 1))
          d
          (if (d =? 3)%nat then 6 else 3)%nat
          (assemble_mass mesh)
          (mkFunction (next + 4 + 2 * d) inv)
          (mkFunction (next + 3 + 2 * d) array_zero)
          (if (d =? 3)%nat
           then [(0,0); (0,1); (0,2); (1,1); (1,2); (2,2)]
           else [(0,0); (0,1); (1,1)])%nat
          (mkKrylovSolver "cg" "default" "same_nonzero_pattern" false false false)
          bcs_CG1.
Proof.
  intros Hsetup d. revert Hsetup. unfold les_setup. fold d.
  unfold mbind, Setup_bind, lift.
  destruct (d =? 0)%nat eqn:Ed; [discriminate|].
  apply Nat.eqb_neq in Ed.
  unfold new_Function at 1 2.
  destruct (getitem bcs "u0") as [bcs_u0|e]; [|discriminate].
  unfold new_Function at 1.
  destruct (make_bcs_u_CG1 u_components bcs ∅) as [bcs_CG1|e]; [|discriminate].
  rewrite new_Functions_spec. rewrite new_Functions_spec.
  unfold new_Function at 1 2. simpl values.
  destruct (scalar_div 1 (assemble_test mesh)) as [inv|e]; [|discriminate].
  repeat rewrite new_Functions_spec.
  unfold new_Function. unfold mret, Setup_ret.
  destruct (d =? 3)%nat; intros [= <- <-];
    exists bcs_u0, bcs_CG1, inv; (repeat split; try assumption);
    unfold set_local; simpl; repeat f_equal; lia.
Qed.

End SetupFacts.

Section SkipStep.
Context {n : nat} {Mesh Velocity BCValue SubDomain : Type}.
Context {sub : Substrate n Mesh Velocity BCValue SubDomain}.
Implicit Types (b : Bundle n BCValue SubDomain) (l : Locals Velocity).

(** C3.  When the step index is not a multiple of the recompute interval,
    [les_update] returns, and it leaves the fields [Cs], [JLM] and [JMM]
    (objects and nodal values alike) and every work buffer exactly as they
    were: no tensor and no average is recomputed.  The only field written
    is [nut_], whose nodal values are refreshed by the call [nut_()] from
    the coefficient values stored by the last recomputation. *)
Theorem skip_step_keeps_Cs_JLM_JMM l b :
  skip_step l ->
  exists b', les_update l b = OK b' /\
    Cs b' = Cs b /\ JLM b' = JLM b /\ JMM b' = JMM b /\
    (Lij b', Mij b', Sijcomps b', Sijfcomps b', u_CG1 b', u_filtered b', dummy b')
      = (Lij b, Mij b, Sijcomps b, Sijfcomps b, u_CG1 b, u_filtered b, dummy b) /\
    values (fn (nut_ b')) = CG1Function_call (values (Cs b)) (u_ l) (nut_ b) /\
    fid (fn (nut_ b')) = fid (fn (nut_ b)).
Proof.
  intros Hskip. exists (refresh_nut l b). split.
  - now apply les_update_skip.
  - repeat split.
Qed.

End SkipStep.

Section FullRecompute.
Context {n : nat} {Mesh Velocity BCValue SubDomain : Type}.
Context {sub : Substrate n Mesh Velocity BCValue SubDomain}.
Implicit Types (b : Bundle n BCValue SubDomain) (l : Locals Velocity).
Implicit Types (i : fin n).

(** What a full-recompute step computes.  On a step whose index is a multiple of the
    recompute interval, the stored field [Cs] is recomputed from the freshly
    averaged [JLM] and [JMM] as the ratio [JLM/JMM] itself (no square root is
    taken), clipped from above at 0.09 and then smoothed in place by
    [tophatfilter] with two passes; [nut_] is set, node by node, to
    [Cs * delta_CG1_sq * magS] with [Cs] entering linearly, and the boundary
    conditions of [nut_] are applied to the result. *)
Theorem full_recompute_sets_Cs_and_nut l b b' :
  full_recompute l -> les_update l b = OK b' ->
  exists (ratio : array n) (clipped : Function n),
    (JLM b', JMM b') = (JLM (les_average l b).1, JMM (les_average l b).1) /\
    (forall i, ratio !!! i = values (JLM b') !!! i / values (JMM b') !!! i) /\
    clipped = set_local (Cs b) (clip_max ratio (9 # 100)) /\
    Cs b' = tophatfilter clipped clipped 2 1 (G_matr b) (G_under b) /\
    values (fn (nut_ b')) =
      apply_bcs (fn_bcs (nut_ b))
        (array_mul (array_mul (values (Cs b')) (values (delta_CG1_sq b)))
                   (les_average l b).2) /\
    fid (fn (nut_ b')) = fid (fn (nut_ b)).
Proof.
  intros Hfull Hrun.
  destruct (les_update_full_inv l b b' Hfull Hrun) as (ratio & Hdiv & ->).
  pose proof (les_average_frame l b) as (Hp & HCs & Hnut & _).
  injection Hp as Hd _ HG Hg _ _ _.
  exists ratio, (set_local (Cs b) (clip_max ratio (9 # 100))).
  split; [reflexivity|]. split.
  - intros i. simpl. now apply array_div_lookup.
  - simpl. rewrite HG, Hg, Hd, Hnut, HCs. repeat split.
Qed.

(** In exact arithmetic the clip survives the smoothing when the filter
    weights are an averaging: the clipped and filtered field [Cs] is then at
    most 0.09 at every node, whatever the ratio [JLM/JMM] is.  The rounded
    reciprocal that line 62 stores in [G_under] need not give an averaging;
    [float_bundle] is a bundle where it does not. *)
Theorem Cs_used_in_nut_below_ceiling l b b' :
  tophat_averaging b -> full_recompute l -> les_update l b = OK b' ->
  exists used : array n,
    (forall i, used !!! i <= 9 # 100) /\
    used = values (Cs b') /\
    values (fn (nut_ b')) =
      apply_bcs (fn_bcs (nut_ b'))
        (array_mul (array_mul used (values (delta_CG1_sq b')))
                   (les_average l b).2).
Proof.
  intros (HG & Hg & Hsum) Hfull Hrun.
  destruct (les_update_full_inv l b b' Hfull Hrun) as (ratio & Hdiv & ->).
  pose proof (les_average_frame l b) as (Hp & _ & _ & _).
  injection Hp as _ _ HG' Hg' _ _ _.
  exists (values (Cs (smooth_Cs
            (with_Cs (set_local (Cs (les_average l b).1) (clip_max ratio Cs_ceiling))
                     (les_average l b).1)))).
  split; [|split; reflexivity].
  intros i. unfold smooth_Cs. simpl Cs. simpl G_matr. simpl G_under.
  rewrite HG', Hg'.
  apply tophatfilter_le; try assumption.
  - unfold Qle; simpl; lia.
  - intros j. simpl. apply clip_max_le.
Qed.

(** On a full-recompute step the division [JLM/JMM] is taken on the
    fields as the Lagrangian average leaves them; when every nodal value of
    that [JMM] is strictly positive, no divisor is zero, the quotient is
    defined at every node and [les_update] returns. *)
Theorem ratio_division_defined l b :
  full_recompute l ->
  (forall i, 0 < values (JMM (les_average l b).1) !!! i) ->
  exists (ratio : array n) b',
    array_div (values (JLM (les_average l b).1)) (values (JMM (les_average l b).1))
      = OK ratio /\
    (forall i, ratio !!! i =
               values (JLM (les_average l b).1) !!! i
               / values (JMM (les_average l b).1) !!! i) /\
    les_update l b = OK b' /\
    JMM b' = JMM (les_average l b).1.
Proof.
  intros Hfull Hpos.
  assert (Hdiv : array_div (values (JLM (les_average l b).1))
                           (values (JMM (les_average l b).1))
                 = OK (vzip_with Qdiv (values (JLM (les_average l b).1))
                                      (values (JMM (les_average l b).1)))).
  { apply array_div_OK. intros i Hz. specialize (Hpos i). rewrite Hz in Hpos.
    now apply Qlt_irrefl in Hpos. }
  eexists. eexists. split; [exact Hdiv|]. split.
  - intros i. now rewrite vlookup_zip_with.
  - rewrite (les_update_full _ _ Hfull). unfold update_Cs. rewrite Hdiv. simpl.
    split; reflexivity.
Qed.

(** A zero among the divisors is what the model reports as [NonFinite]. *)
Lemma ratio_division_undefined l b i :
  full_recompute l ->
  values (JMM (les_average l b).1) !!! i == 0 ->
  les_update l b = Raise NonFinite.
Proof.
  intros Hfull Hz. rewrite (les_update_full _ _ Hfull). unfold update_Cs, array_div.
  destruct (existsb is_zero _) eqn:E; [reflexivity|].
  pose proof (proj1 (existsb_false_Forall _ _) E) as HF.
  rewrite Forall_vlookup in HF. specialize (HF i).
  apply is_zero_false in HF. contradiction.
Qed.

(** C10.  The clip of the coefficient update is one-sided.  After lines
    132-133 the value of [Cs] at a node is the minimum of the ratio
    [JLM/JMM] there and 0.09; a ratio that does not exceed 0.09, a negative
    one included, is stored as it is, and nothing bounds it from below. *)
Theorem clip_is_one_sided b b' :
  update_Cs b = OK b' ->
  forall i,
    values (Cs b') !!! i
      = Qmin (values (JLM b) !!! i / values (JMM b) !!! i) (9 # 100) /\
    (values (JLM b) !!! i / values (JMM b) !!! i <= 9 # 100 ->
     values (Cs b') !!! i = values (JLM b) !!! i / values (JMM b) !!! i).
Proof.
  intros (ratio & Hdiv & ->)%update_Cs_inv i. simpl.
  rewrite clip_max_lookup, (array_div_lookup _ _ _ i Hdiv).
  split; [reflexivity|]. apply Qmin_below.
Qed.

End FullRecompute.

Section SetupTheorems.
Context {n : nat} {Mesh Velocity BCValue SubDomain : Type}.
Context {sub : Substrate n Mesh Velocity BCValue SubDomain}.
Implicit Types (b : Bundle n BCValue SubDomain) (l : Locals Velocity).
Implicit Types (bcs : gmap string (list (DirichletBC BCValue SubDomain))).

Lemma make_bcs_u_CG1_OK u_components bcs acc :
  Forall (fun ui => is_Some (bcs !! ui)) u_components ->
  exists r, make_bcs_u_CG1 u_components bcs acc = OK r.
Proof.
  intros Hall. revert acc.
  induction Hall as [|ui rest [bcs_ui Hui] _ IH]; intros acc; simpl.
  - now exists acc.
  - unfold getitem. rewrite Hui. simpl. apply IH.
Qed.

(** Setup returns whenever the mesh has a positive dimension, the dict of
    boundary conditions has an entry for ["u0"] and for every velocity
    component, and no nodal integral of a test function vanishes. *)
Lemma les_setup_OK u_ mesh assemble_matrix nut_krylov_solver u_components bcs next :
  geometry_dim mesh <> 0%nat ->
  is_Some (bcs !! "u0") ->
  Forall (fun ui => is_Some (bcs !! ui)) u_components ->
  (forall i, ~ assemble_test mesh !!! i == 0) ->
  exists b next',
    les_setup u_ mesh assemble_matrix nut_krylov_solver u_components bcs next
      = OK (b, next').
Proof.
  intros Hd [bcs_u0 Hu0] Hcomps Htest.
  destruct (make_bcs_u_CG1_OK u_components bcs ∅ Hcomps) as [bcs_CG1 HCG1].
  unfold les_setup. unfold mbind, Setup_bind, lift.
  apply Nat.eqb_neq in Hd. rewrite Hd.
  unfold new_Function at 1 2. unfold getitem. rewrite Hu0.
  unfold new_Function at 1. rewrite HCG1.
  rewrite new_Functions_spec. rewrite new_Functions_spec.
  unfold new_Function at 1 2. simpl values.
  unfold scalar_div. rewrite (array_div_OK _ _ Htest).
  repeat rewrite new_Functions_spec.
  unfold new_Function, mret, Setup_ret.
  destruct (geometry_dim mesh =? 3)%nat; eauto.
Qed.

Lemma NoDup_seq_chain (a b c d k : nat) :
  b = (a + k)%nat -> c = (b + k)%nat -> d = (c + k)%nat ->
  NoDup (seq a k ++ seq b k ++ seq c k ++ seq d k).
Proof.
  intros -> -> ->. rewrite <- !seq_app. apply NoDup_seq.
Qed.

(** C4, as the code has it.  Each of [Lij], [Mij], [Sijcomps] and
    [Sijfcomps] is allocated as a list of [dim * dim] nodal functions (4 in
    2-D, 9 in 3-D), all of them distinct objects.  [tensdim] is 3 in 2-D and
    6 in 3-D, and the fixed pairs list, ((0,0),(0,1),(1,1)) in 2-D and
    ((0,0),(0,1),(0,2),(1,1),(1,2),(2,2)) in 3-D, has exactly [tensdim]
    entries, each an upper-triangular index pair; so the [tensdim]
    components of a symmetric tensor fit in the allocated lists. *)
Theorem tensor_fields_layout u_ mesh assemble_matrix nut_krylov_solver
    u_components bcs next b next' :
  les_setup u_ mesh assemble_matrix nut_krylov_solver u_components bcs next
    = OK (b, next') ->
  dim b = geometry_dim mesh /\
  Forall (fun fs : list (Function n) => length fs = (dim b * dim b)%nat)
         [Lij b; Mij b; Sijcomps b; Sijfcomps b] /\
  NoDup (map fid (Lij b ++ Mij b ++ Sijcomps b ++ Sijfcomps b)) /\
  (dim b = 2%nat ->
     tensdim b = 3%nat /\ uiuj_pairs b = [(0,0); (0,1); (1,1)]%nat) /\
  (dim b = 3%nat ->
     tensdim b = 6%nat /\
     uiuj_pairs b = [(0,0); (0,1); (0,2); (1,1); (1,2); (2,2)]%nat) /\
  length (uiuj_pairs b) = tensdim b /\
  (dim b = 2%nat \/ dim b = 3%nat ->
     (tensdim b <= dim b * dim b)%nat /\
     Forall (fun p : nat * nat => (p.1 <= p.2 < dim b)%nat) (uiuj_pairs b)).
Proof.
  intros (bcs_u0 & bcs_CG1 & inv & Hd & _ & _ & _ & ->)%les_setup_inv.
  simpl. set (d := geometry_dim mesh) in *.
  split; [reflexivity|]. split.
  { repeat constructor; apply fresh_zeros_length. }
  split.
  { rewrite !map_app, !fresh_zeros_fid. apply NoDup_seq_chain; lia. }
  split; [intros ->; split; reflexivity|].
  split; [intros ->; split; reflexivity|].
  split; [destruct (d =? 3)%nat; reflexivity|].
  intros [-> | ->]; simpl; (split; [lia|]); repeat constructor; simpl; lia.
Qed.

(** The solver [les_setup] builds for the strain-rate solves has
    [error_on_nonconvergence] (and the monitoring and report flags) switched
    off; a solve with these parameters never raises, converged or not, and
    hands back the iterate the iteration stopped at; and no later call of
    [les_update] changes the parameters. *)
Theorem Sij_solver_tolerates_nonconvergence u_ mesh assemble_matrix
    nut_krylov_solver u_components bcs next b next' :
  les_setup u_ mesh assemble_matrix nut_krylov_solver u_components bcs next
    = OK (b, next') ->
  error_on_nonconvergence (Sij_sol b) = false /\
  monitor_convergence (Sij_sol b) = false /\
  report (Sij_sol b) = false /\
  (forall (A : Type) (o : krylov_outcome A),
     KrylovSolver_solve (Sij_sol b) o = OK (iterate o)) /\
  (forall ls b', les_run ls b = OK b' -> Sij_sol b' = Sij_sol b).
Proof.
  intros (bcs_u0 & bcs_CG1 & inv & Hd & _ & _ & _ & ->)%les_setup_inv.
  simpl. repeat split.
  - intros A [x|x]; reflexivity.
  - intros ls b' Hrun. now apply les_run_frame in Hrun as [_ ->].
Qed.

(** C8.  After setup, [JLM] holds 1e-32, a small positive number, at every
    node and [JMM] holds 1 at every node; the quotient [JLM/JMM] of the
    initial fields is therefore defined, and equal to 1e-32, everywhere. *)
Theorem memory_fields_initial_values u_ mesh assemble_matrix
    nut_krylov_solver u_components bcs next b next' :
  les_setup u_ mesh assemble_matrix nut_krylov_solver u_components bcs next
    = OK (b, next') ->
  values (JLM b) = vreplicate n (1 # 10 ^ 32) /\
  values (JMM b) = vreplicate n 1 /\
  (forall i : fin n, 0 < values (JLM b) !!! i < 1 # 10 ^ 31) /\
  exists ratio : array n,
    array_div (values (JLM b)) (values (JMM b)) = OK ratio /\
    forall i : fin n, ratio !!! i == 1 # 10 ^ 32.
Proof.
  intros (bcs_u0 & bcs_CG1 & inv & Hd & _ & _ & _ & ->)%les_setup_inv.
  simpl. unfold array_add_scalar, array_zero. rewrite !vmap_vreplicate.
  split; [reflexivity|]. split; [reflexivity|]. split.
  - intros i. rewrite vlookup_replicate. split; reflexivity.
  - eexists. split.
    + apply array_div_OK. intros i. rewrite vlookup_replicate. discriminate.
    + intros i. rewrite vlookup_zip_with, !vlookup_replicate. reflexivity.
Qed.

(** C9.  The nodal field of [delta] squared, the derivative matrices, the
    filter's mass matrix and lumped-mass inverse, and the lists of boundary
    conditions on CG1 are built by [les_setup] from the mesh and the
    solver's boundary conditions, and whatever sequence of [les_update]
    calls follows, every one of them is still the object setup built, with
    the values setup gave it. *)
Theorem precomputed_operators_read_only u_ mesh assemble_matrix
    nut_krylov_solver u_components bcs next b0 next' ls b :
  les_setup u_ mesh assemble_matrix nut_krylov_solver u_components bcs next
    = OK (b0, next') ->
  les_run ls b0 = OK b ->
  precomputed b = precomputed b0 /\
  values (delta_CG1_sq b) = array_sq (project_delta mesh) /\
  Sijmats b = map assemble_matrix (seq 0 (geometry_dim mesh)) /\
  G_matr b = assemble_mass mesh /\
  scalar_div 1 (assemble_test mesh) = OK (values (G_under b)) /\
  make_bcs_u_CG1 u_components bcs ∅ = OK (bcs_u_CG1 b) /\
  fn_bcs (nut_ b) = bcs_nut b.
Proof.
  intros (bcs_u0 & bcs_CG1 & inv & Hd & _ & HCG1 & Hinv & ->)%les_setup_inv Hrun.
  apply les_run_frame in Hrun as [Hp _].
  split; [exact Hp|].
  injection Hp as -> -> -> -> -> -> ->. simpl.
  repeat split; assumption.
Qed.

End SetupTheorems.

(** ** The statements on the toy mesh *)

Lemma toy_setup_bundle (J1 J2 mags : array 3) :
  toy_setup J1 J2 mags = OK (toy_bundle, 27%nat).
Proof. vm_compute. reflexivity. Qed.

Lemma toy_full_recompute : full_recompute (toy_locals 0 1).
Proof. exists 1%Z. split; [reflexivity | split; [discriminate | reflexivity]]. Qed.

Lemma fin3_all (P : fin 3 -> Prop) : P 0%fin -> P 1%fin -> P 2%fin -> forall i, P i.
Proof. intros H0 H1 H2 i. inv_fin i; [exact H0|]. intros i. inv_fin i; [exact H1|].
  intros i. inv_fin i; [exact H2|]. intros i. inv_fin i. Qed.

Lemma toy_tophat_averaging : tophat_averaging toy_bundle.
Proof.
  repeat split.
  - apply (fin3_all (fun i => forall j, 0 <= (G_matr toy_bundle !!! i) !!! j));
      apply fin3_all; vm_compute; discriminate.
  - apply fin3_all; vm_compute; discriminate.
  - apply fin3_all; vm_compute; discriminate.
Qed.

Lemma toy_small_step :
  les_update (sub := toy_small) (toy_locals 0 1) toy_bundle = OK toy_small_next.
Proof. vm_compute. reflexivity. Qed.

Lemma toy_wild_step :
  les_update (sub := toy_wild) (toy_locals 0 1) toy_bundle = OK toy_wild_next.
Proof. vm_compute. reflexivity. Qed.

Lemma skip_step_keeps_Cs_JLM_JMM_witness :
  skip_step (toy_locals 1 2) /\
  exists b', les_update (sub := toy [# 1; 1; 1] [# 1; 1; 1] [# 1; 1; 1])
               (toy_locals 1 2) toy_bundle = OK b' /\
    Cs b' = Cs toy_bundle /\ JLM b' = JLM toy_bundle /\ JMM b' = JMM toy_bundle.
Proof.
  assert (Hskip : skip_step (toy_locals 1 2)).
  { exists 2%Z. split; [reflexivity | split; discriminate]. }
  split; [exact Hskip|].
  destruct (skip_step_keeps_Cs_JLM_JMM
              (sub := toy [# 1; 1; 1] [# 1; 1; 1] [# 1; 1; 1])
              (toy_locals 1 2) toy_bundle Hskip)
    as (b' & Hrun & HCs & HJLM & HJMM & _).
  exists b'. repeat split; assumption.
Defined.

Lemma full_recompute_sets_Cs_and_nut_witness :
  full_recompute (toy_locals 0 1) /\
  les_update (sub := toy_small) (toy_locals 0 1) toy_bundle = OK toy_small_next /\
  exists clipped : Function 3,
    (forall i, values clipped !!! i
               = Qmin (values (JLM toy_small_next) !!! i
                       / values (JMM toy_small_next) !!! i) (9 # 100)) /\
    Cs toy_small_next
      = tophatfilter clipped clipped 2 1 (G_matr toy_bundle) (G_under toy_bundle).
Proof.
  split; [exact toy_full_recompute|]. split; [exact toy_small_step|].
  destruct (full_recompute_sets_Cs_and_nut (sub := toy_small) (toy_locals 0 1)
              toy_bundle toy_small_next toy_full_recompute toy_small_step)
    as (ratio & clipped & _ & Hratio & Hclipped & HCs & _).
  exists clipped. split; [|exact HCs].
  intros i. rewrite Hclipped. simpl. now rewrite clip_max_lookup, Hratio.
Defined.

(** C1 fails on the code.  The comment and the docstring of lines 127-131
    announce [Cs = sqrt(JLM/JMM)] and a term [Cs**2] in the viscosity, as the
    claim does.  On the toy mesh, with the averaged ratio [JLM/JMM] equal to
    1/10000 at every node, a full-recompute step leaves 1/10000 in [Cs], the
    ratio itself and not its square root 1/100: the square of the stored
    value is not the ratio.  At the interior node 1 the viscosity is
    [Cs * delta_CG1_sq * magS = 1/10000], which is not
    [Cs^2 * delta_CG1_sq * magS]. *)
Lemma Cs_is_not_the_square_root :
  full_recompute (toy_locals 0 1) /\
  les_update (sub := toy_small) (toy_locals 0 1) toy_bundle = OK toy_small_next /\
  (forall i, values (JLM toy_small_next) !!! i / values (JMM toy_small_next) !!! i
             == 1 # 10000) /\
  (forall i, values (Cs toy_small_next) !!! i == 1 # 10000) /\
  (forall i, ~ values (Cs toy_small_next) !!! i * values (Cs toy_small_next) !!! i
               == values (JLM toy_small_next) !!! i
                  / values (JMM toy_small_next) !!! i) /\
  (les_average (sub := toy_small) (toy_locals 0 1) toy_bundle).2 !!! 1%fin = 1 /\
  values (fn (nut_ toy_small_next)) !!! 1%fin == 1 # 10000 /\
  ~ values (fn (nut_ toy_small_next)) !!! 1%fin
    == values (Cs toy_small_next) !!! 1%fin ^ 2
       * values (delta_CG1_sq toy_small_next) !!! 1%fin
       * (les_average (sub := toy_small) (toy_locals 0 1) toy_bundle).2 !!! 1%fin.
Proof.
  split; [exact toy_full_recompute|]. split; [exact toy_small_step|].
  split; [apply fin3_all; vm_compute; reflexivity|].
  split; [apply fin3_all; vm_compute; reflexivity|].
  split; [apply fin3_all; vm_compute; discriminate|].
  split; [reflexivity|].
  split; [vm_compute; reflexivity | vm_compute; discriminate].
Qed.

Lemma Cs_used_in_nut_below_ceiling_witness :
  tophat_averaging toy_bundle /\
  full_recompute (toy_locals 0 1) /\
  les_update (sub := toy_wild) (toy_locals 0 1) toy_bundle = OK toy_wild_next /\
  values (JLM toy_wild_next) !!! 0%fin / values (JMM toy_wild_next) !!! 0%fin == 100 /\
  forall i, values (Cs toy_wild_next) !!! i <= 9 # 100.
Proof.
  split; [exact toy_tophat_averaging|].
  split; [exact toy_full_recompute|].
  split; [exact toy_wild_step|].
  split; [vm_compute; reflexivity|].
  destruct (Cs_used_in_nut_below_ceiling (sub := toy_wild) (toy_locals 0 1)
              toy_bundle toy_wild_next toy_tophat_averaging toy_full_recompute
              toy_wild_step)
    as (used & Hle & Hused & _).
  rewrite <- Hused. exact Hle.
Defined.

Lemma ratio_division_defined_witness :
  full_recompute (toy_locals 0 1) /\
  (forall i, 0 < values (JMM (les_average (sub := toy_wild) (toy_locals 0 1)
                                toy_bundle).1) !!! i) /\
  exists (ratio : array 3) b',
    array_div
      (values (JLM (les_average (sub := toy_wild) (toy_locals 0 1) toy_bundle).1))
      (values (JMM (les_average (sub := toy_wild) (toy_locals 0 1) toy_bundle).1))
      = OK ratio /\
    (forall i, ratio !!! i =
       values (JLM (les_average (sub := toy_wild) (toy_locals 0 1) toy_bundle).1) !!! i
       / values (JMM (les_average (sub := toy_wild) (toy_locals 0 1) toy_bundle).1) !!! i) /\
    les_update (sub := toy_wild) (toy_locals 0 1) toy_bundle = OK b' /\
    JMM b' = JMM (les_average (sub := toy_wild) (toy_locals 0 1) toy_bundle).1.
Proof.
  assert (Hpos : forall i, 0 < values (JMM (les_average (sub := toy_wild)
                                              (toy_locals 0 1) toy_bundle).1) !!! i).
  { apply fin3_all; vm_compute; reflexivity. }
  split; [exact toy_full_recompute|]. split; [exact Hpos|].
  exact (ratio_division_defined (sub := toy_wild) (toy_locals 0 1) toy_bundle
           toy_full_recompute Hpos).
Defined.

Lemma clip_is_one_sided_witness :
  exists b',
    update_Cs toy_mixed = OK b' /\
    values (Cs b') !!! 0%fin = -1 # 2 /\
    values (Cs b') !!! 1%fin = 1 # 20 /\
    values (Cs b') !!! 2%fin = 9 # 100.
Proof.
  eexists. split; [vm_compute; reflexivity|].
  match goal with
  | |- values (Cs ?b') !!! _ = _ /\ _ =>
      assert (Hrun : update_Cs toy_mixed = OK b') by (vm_compute; reflexivity);
      pose proof (clip_is_one_sided toy_mixed b' Hrun) as Hclip
  end.
  split; [|split].
  - destruct (Hclip 0%fin) as [_ Hbelow]. rewrite Hbelow; [reflexivity|].
    vm_compute. discriminate.
  - destruct (Hclip 1%fin) as [_ Hbelow]. rewrite Hbelow; [reflexivity|].
    vm_compute. discriminate.
  - destruct (Hclip 2%fin) as [Hmin _]. rewrite Hmin. reflexivity.
Defined.

Lemma tensor_fields_layout_witness :
  toy_setup [# 1; 1; 1] [# 1; 1; 1] [# 1; 1; 1] = OK (toy_bundle, 27%nat) /\
  dim toy_bundle = 2%nat /\
  Forall (fun fs : list (Function 3) => length fs = 4%nat)
         [Lij toy_bundle; Mij toy_bundle; Sijcomps toy_bundle; Sijfcomps toy_bundle] /\
  tensdim toy_bundle = 3%nat /\
  uiuj_pairs toy_bundle = [(0,0); (0,1); (1,1)]%nat.
Proof.
  pose proof (toy_setup_bundle [# 1; 1; 1] [# 1; 1; 1] [# 1; 1; 1]) as Hsetup.
  split; [exact Hsetup|].
  destruct (tensor_fields_layout
              (sub := toy [# 1; 1; 1] [# 1; 1; 1] [# 1; 1; 1])
              tt 2%nat (fun _ => toy_mass) ∅ ["u0"; "u1"]%string toy_bcs
              0%nat toy_bundle 27%nat Hsetup)
    as (Hdim & Hlen & _ & H2D & _).
  split; [exact Hdim|]. split; [exact Hlen|]. exact (H2D Hdim).
Defined.

(** C4, as it is stated, fails.  On a 2-D mesh [tensdim] is 3, yet each of
    the four tensor lists holds [dim * dim = 4] functions. *)
Lemma tensor_lists_longer_than_tensdim :
  toy_setup [# 1; 1; 1] [# 1; 1; 1] [# 1; 1; 1] = OK (toy_bundle, 27%nat) /\
  dim toy_bundle = 2%nat /\
  tensdim toy_bundle = 3%nat /\
  Forall (fun fs : list (Function 3) =>
            length fs = 4%nat /\ length fs <> tensdim toy_bundle)
         [Lij toy_bundle; Mij toy_bundle; Sijcomps toy_bundle; Sijfcomps toy_bundle].
Proof.
  split; [apply toy_setup_bundle|]. split; [reflexivity|]. split; [reflexivity|].
  repeat constructor; discriminate.
Qed.

Lemma Sij_solver_tolerates_nonconvergence_witness :
  toy_setup [# 1; 1; 1] [# 1; 1; 1] [# 1; 1; 1] = OK (toy_bundle, 27%nat) /\
  error_on_nonconvergence (Sij_sol toy_bundle) = false /\
  KrylovSolver_solve (Sij_sol toy_bundle) (NotConverged [# 1; 2; 3]) = OK [# 1; 2; 3].
Proof.
  pose proof (toy_setup_bundle [# 1; 1; 1] [# 1; 1; 1] [# 1; 1; 1]) as Hsetup.
  split; [exact Hsetup|].
  destruct (Sij_solver_tolerates_nonconvergence
              (sub := toy [# 1; 1; 1] [# 1; 1; 1] [# 1; 1; 1])
              tt 2%nat (fun _ => toy_mass) ∅ ["u0"; "u1"]%string toy_bcs
              0%nat toy_bundle 27%nat Hsetup)
    as (Herr & _ & _ & Hsolve & _).
  split; [exact Herr|]. apply Hsolve.
Defined.

Lemma memory_fields_initial_values_witness :
  toy_setup [# 1; 1; 1] [# 1; 1; 1] [# 1; 1; 1] = OK (toy_bundle, 27%nat) /\
  values (JLM toy_bundle) = [# 1 # 10 ^ 32; 1 # 10 ^ 32; 1 # 10 ^ 32] /\
  values (JMM toy_bundle) = [# 1; 1; 1].
Proof.
  pose proof (toy_setup_bundle [# 1; 1; 1] [# 1; 1; 1] [# 1; 1; 1]) as Hsetup.
  split; [exact Hsetup|].
  destruct (memory_fields_initial_values
              (sub := toy [# 1; 1; 1] [# 1; 1; 1] [# 1; 1; 1])
              tt 2%nat (fun _ => toy_mass) ∅ ["u0"; "u1"]%string toy_bcs
              0%nat toy_bundle 27%nat Hsetup)
    as (HJLM & HJMM & _).
  split; [exact HJLM | exact HJMM].
Defined.

Lemma toy_wild_run :
  les_run (sub := toy_wild) toy_three_steps toy_bundle = OK toy_after_three.
Proof. vm_compute. reflexivity. Qed.

Lemma precomputed_operators_read_only_witness :
  toy_setup [# 100; 1 # 100; -5] [# 1; 1; 1] [# 1; 1; 1] = OK (toy_bundle, 27%nat) /\
  les_run (sub := toy_wild) toy_three_steps toy_bundle = OK toy_after_three /\
  precomputed toy_after_three = precomputed toy_bundle /\
  Cs toy_after_three <> Cs toy_bundle.
Proof.
  pose proof (toy_setup_bundle [# 100; 1 # 100; -5] [# 1; 1; 1] [# 1; 1; 1]) as Hsetup.
  split; [exact Hsetup|]. split; [exact toy_wild_run|].
  destruct (precomputed_operators_read_only (sub := toy_wild)
              tt 2%nat (fun _ => toy_mass) ∅ ["u0"; "u1"]%string toy_bcs
              0%nat toy_bundle 27%nat toy_three_steps toy_after_three
              Hsetup toy_wild_run)
    as (Hp & _).
  split; [exact Hp | discriminate].
Defined.

(** * The coefficient update against its documentation *)

(** C2 fails on the code.  The clip of line 132 comes before the filter of
    line 134, so what line 137 multiplies is the output of the filter, which
    nothing bounds.  On the triangle of area 22.875, whose mass matrix rows
    sum to the nodal integral 61/8 and whose [G_under] is the binary64
    reciprocal of 7.625, a ratio [JLM/JMM] of 100 is clipped to 0.09 and the
    two filter passes then lift it above 0.09 at every node; that value is
    the factor of [delta_CG1_sq * magS] in [nut_]. *)
Lemma filtered_Cs_exceeds_ceiling :
  (forall i, row_sum (G_matr float_bundle !!! i) == 61 # 8) /\
  (forall i, values (G_under float_bundle) !!! i = float_reciprocal) /\
  8 # 61 < float_reciprocal /\ float_reciprocal - (8 # 61) < 1 # 2 ^ 55 /\
  full_recompute (toy_locals 0 1) /\
  les_update (sub := toy_hundred) (toy_locals 0 1) float_bundle = OK float_next /\
  (forall i, values (JLM float_next) !!! i / values (JMM float_next) !!! i == 100) /\
  (forall i, 9 # 100 < values (Cs float_next) !!! i) /\
  values (fn (nut_ float_next)) !!! 1%fin
    = values (Cs float_next) !!! 1%fin * values (delta_CG1_sq float_bundle) !!! 1%fin
      * (les_average (sub := toy_hundred) (toy_locals 0 1) float_bundle).2 !!! 1%fin.
Proof.
  split; [apply fin3_all; vm_compute; reflexivity|].
  split; [apply fin3_all; reflexivity|].
  split; [reflexivity|]. split; [reflexivity|].
  split; [exact toy_full_recompute|].
  split; [vm_compute; reflexivity|].
  split; [apply fin3_all; vm_compute; reflexivity|].
  split; [apply fin3_all; vm_compute; reflexivity|].
  vm_compute. reflexivity.
Qed.

Section FlooredAverage.
Context {n : nat} {Mesh Velocity BCValue SubDomain : Type}.
Implicit Types (b : Bundle n BCValue SubDomain) (l : Locals Velocity).
Implicit Types (S : Substrate n Mesh Velocity BCValue SubDomain).

Lemma floor_nonpositive_pos (floor : Q) (a : array n) (i : fin n) :
  0 < floor -> 0 < floor_nonpositive floor a !!! i.
Proof.
  intros Hfloor. unfold floor_nonpositive. rewrite vlookup_map.
  destruct (Qle_bool (a !!! i) 0) eqn:E; [exact Hfloor|].
  apply Qnot_le_lt. intros Hle. apply Qle_bool_iff in Hle.
  rewrite Hle in E. discriminate.
Qed.

Lemma floored_average_JMM S (floor1 floor2 : Q) l b :
  exists raw : array n,
    values (JMM (les_average (sub := with_floored_average floor1 floor2 S) l b).1)
      = floor_nonpositive floor2 raw.
Proof.
  unfold les_average. simpl.
  destruct (compute_Mij alpha l _) as [bM magS]. simpl. eauto.
Qed.

(** C5.  The Lagrangian average ends by flooring [JMM] away from zero; so on
    every full-recompute step each divisor of the division [JLM/JMM] of
    line 132 is strictly positive, whatever the average yields before the
    flooring.  No division by zero takes place: the update returns, and the
    field [Cs] it leaves is the smoothing of the quotient [JLM/JMM] of the
    stored memory fields, clipped at 0.09, node by node. *)
Theorem floored_JMM_keeps_ratio_defined S (floor1 floor2 : Q) l b :
  0 < floor2 -> full_recompute l ->
  (forall i : fin n,
     0 < values (JMM (les_average
                        (sub := with_floored_average floor1 floor2 S) l b).1) !!! i) /\
  exists b' (clipped : Function n),
    les_update (sub := with_floored_average floor1 floor2 S) l b = OK b' /\
    (forall i : fin n, 0 < values (JMM b') !!! i) /\
    (forall i : fin n,
       values clipped !!! i
       = Qmin (values (JLM b') !!! i / values (JMM b') !!! i) (9 # 100)) /\
    Cs b' = tophatfilter clipped clipped 2 1 (G_matr b) (G_under b).
Proof.
  intros Hfloor Hfull.
  set (sub' := with_floored_average floor1 floor2 S).
  assert (Hpos : forall i : fin n,
            0 < values (JMM (les_average (sub := sub') l b).1) !!! i).
  { intros i. destruct (floored_average_JMM S floor1 floor2 l b) as [raw Hraw].
    unfold sub'. rewrite Hraw. now apply floor_nonpositive_pos. }
  split; [exact Hpos|].
  assert (Hnz : forall i : fin n,
            ~ values (JMM (les_average (sub := sub') l b).1) !!! i == 0).
  { intros i Hz. specialize (Hpos i). rewrite Hz in Hpos.
    now apply Qlt_irrefl in Hpos. }
  pose proof (les_average_frame (sub := sub') l b) as (Hp & HCs & _ & _).
  injection Hp as _ _ HG Hg _ _ _.
  set (bA := (les_average (sub := sub') l b).1) in *.
  set (ratio := vzip_with Qdiv (values (JLM bA)) (values (JMM bA))).
  exists (update_nut (sub := sub') (les_average (sub := sub') l b).2
            (smooth_Cs (with_Cs (set_local (Cs bA) (clip_max ratio Cs_ceiling)) bA))),
         (set_local (Cs b) (clip_max ratio Cs_ceiling)).
  split; [|split; [exact Hpos|split]].
  - rewrite (les_update_full (sub := sub') _ _ Hfull). unfold update_Cs.
    fold bA. rewrite (array_div_OK _ _ Hnz). reflexivity.
  - intros i. simpl. rewrite clip_max_lookup. unfold ratio.
    now rewrite vlookup_zip_with.
  - simpl. now rewrite HG, Hg, HCs.
Qed.

End FlooredAverage.

Lemma floored_JMM_keeps_ratio_defined_witness :
  full_recompute (toy_locals 0 1) /\
  exists b',
    les_update (sub := toy_floored) (toy_locals 0 1) toy_bundle = OK b' /\
    forall i, 0 < values (JMM b') !!! i.
Proof.
  split; [exact toy_full_recompute|].
  destruct (floored_JMM_keeps_ratio_defined
              (toy [# 1; 1; 1] [# 0; -3; 2] [# 1; 1; 1])
              (1 # 10 ^ 32) (1 # 10 ^ 32) (toy_locals 0 1) toy_bundle
              eq_refl toy_full_recompute)
    as (_ & b' & clipped & Hrun & Hpos & _).
  exists b'. split; [exact Hrun | exact Hpos].
Defined.

Section TestFilterRatio.
Context {n : nat} {Mesh Velocity BCValue SubDomain : Type}.
Context {sub : Substrate n Mesh Velocity BCValue SubDomain}.
Implicit Types (b : Bundle n BCValue SubDomain) (l : Locals Velocity).

Lemma les_average_unfold l b :
  les_average l b =
    (absorb_J
       (lagrange_average 2 (compute_Mij 2 l (les_velocity_Lij l b)).2 l
          (absorb_work (compute_Mij 2 l (les_velocity_Lij l b)).1
                       (les_velocity_Lij l b)))
       (absorb_work (compute_Mij 2 l (les_velocity_Lij l b)).1
                    (les_velocity_Lij l b)),
     (compute_Mij 2 l (les_velocity_Lij l b)).2).
Proof.
  unfold les_average, alpha.
  now destruct (compute_Mij 2 l (les_velocity_Lij l b)).
Qed.

(** C7, as the code has it.  The test-filter ratio is the constant 2 that
    [les_update] fixes in its own body; it is positive, no entry of the
    configuration dict and no field enters it.  On every full-recompute step
    the [Mij] builder is called with [alphaval = 2], on the bundle as the
    [Lij] builder leaves it: the array [magS] it returns for that ratio is
    the one handed to [lagrange_average], whose output the step stores in
    [JLM] and [JMM], and the one that multiplies [Cs * delta_CG1_sq] in
    [nut_]; and the step is the same for any builder that agrees with the
    given one at the ratio 2. *)
Theorem Mij_builder_called_with_ratio_two l b b' :
  full_recompute l -> les_update l b = OK b' ->
  alpha = 2 /\ 0 < alpha /\
  (values (JLM b'), values (JMM b'))
    = (values (JLM (lagrange_average 2 (compute_Mij 2 l (les_velocity_Lij l b)).2 l
                      (absorb_work (compute_Mij 2 l (les_velocity_Lij l b)).1
                                   (les_velocity_Lij l b)))),
       values (JMM (lagrange_average 2 (compute_Mij 2 l (les_velocity_Lij l b)).2 l
                      (absorb_work (compute_Mij 2 l (les_velocity_Lij l b)).1
                                   (les_velocity_Lij l b))))) /\
  values (fn (nut_ b'))
    = apply_bcs (fn_bcs (nut_ b))
        (array_mul (array_mul (values (Cs b')) (values (delta_CG1_sq b)))
                   (compute_Mij 2 l (les_velocity_Lij l b)).2) /\
  (forall f : Q -> Locals Velocity -> Bundle n BCValue SubDomain ->
              Bundle n BCValue SubDomain * array n,
     (forall l' b0, f 2 l' b0 = compute_Mij 2 l' b0) ->
     les_update (sub := with_compute_Mij f sub) l b = OK b').
Proof.
  intros Hfull Hrun. split; [reflexivity|]. split; [reflexivity|].
  destruct (les_update_full_inv l b b' Hfull Hrun) as (ratio & _ & Hb').
  pose proof (les_average_frame l b) as (Hp & _ & Hnut & _).
  injection Hp as Hd _ _ _ _ _ _.
  split; [|split].
  - rewrite Hb'. simpl. now rewrite les_average_unfold.
  - assert (Hm : (les_average l b).2 = (compute_Mij 2 l (les_velocity_Lij l b)).2)
      by now rewrite les_average_unfold.
    rewrite Hb'. simpl. now rewrite Hnut, Hd, Hm.
  - intros f Hf. rewrite <- Hrun.
    unfold les_update, les_average, alpha. simpl.
    unfold les_velocity_Lij. simpl. rewrite Hf. reflexivity.
Qed.

End TestFilterRatio.

Lemma toy_alpha_full_recompute : full_recompute toy_locals_alpha.
Proof. exists 1%Z. split; [reflexivity | split; [discriminate | reflexivity]]. Qed.

Lemma toy_echo_step :
  les_update (sub := toy_echo) toy_locals_alpha toy_bundle = OK toy_echo_next.
Proof. vm_compute. reflexivity. Qed.

Lemma Mij_builder_called_with_ratio_two_witness :
  full_recompute toy_locals_alpha /\
  les_update (sub := toy_echo) toy_locals_alpha toy_bundle = OK toy_echo_next /\
  values (fn (nut_ toy_echo_next))
    = apply_bcs (sub := toy_echo) (fn_bcs (nut_ toy_bundle))
        (array_mul (array_mul (values (Cs toy_echo_next))
                              (values (delta_CG1_sq toy_bundle)))
                   [# 2; 2; 2]).
Proof.
  split; [exact toy_alpha_full_recompute|]. split; [exact toy_echo_step|].
  exact (proj1 (proj2 (proj2 (proj2
           (Mij_builder_called_with_ratio_two (sub := toy_echo) toy_locals_alpha
              toy_bundle toy_echo_next toy_alpha_full_recompute toy_echo_step))))).
Defined.

(** C7, as it is stated, fails: the ratio is no part of the configuration.
    With an entry ["alpha"] of 3 in the configuration dict, the [Mij]
    builder of a full-recompute step is still called with the ratio 2: the
    builder that echoes its ratio into [magS] yields 2 at every node, and
    the viscosity at the interior node 1 is [Cs * delta_CG1_sq * 2], not
    [Cs * delta_CG1_sq * 3]. *)
Lemma alpha_is_not_configurable :
  DynamicSmagorinsky toy_locals_alpha !! "alpha" = Some 3%Z /\
  full_recompute toy_locals_alpha /\
  les_update (sub := toy_echo) toy_locals_alpha toy_bundle = OK toy_echo_next /\
  (les_average (sub := toy_echo) toy_locals_alpha toy_bundle).2 = [# 2; 2; 2] /\
  values (fn (nut_ toy_echo_next)) !!! 1%fin
    == values (Cs toy_echo_next) !!! 1%fin
       * values (delta_CG1_sq toy_bundle) !!! 1%fin * 2 /\
  ~ values (fn (nut_ toy_echo_next)) !!! 1%fin
    == values (Cs toy_echo_next) !!! 1%fin
       * values (delta_CG1_sq toy_bundle) !!! 1%fin * 3.
Proof.
  split; [reflexivity|]. split; [exact toy_alpha_full_recompute|].
  split; [exact toy_echo_step|]. split; [reflexivity|].
  split; [vm_compute; reflexivity | vm_compute; discriminate].
Qed.

(** * Further properties of [les_update] *)

Section UpdateCases.
Context {n : nat} {Mesh Velocity BCValue SubDomain : Type}.
Context {sub : Substrate n Mesh Velocity BCValue SubDomain}.
Implicit Types (b : Bundle n BCValue SubDomain) (l : Locals Velocity).
Implicit Types (i : fin n) (v : array n).

(** The branch [les_update] takes is decided by the configuration dict and
    the step index alone.  A dict without the key ["Cs_comp_step"] raises
    [KeyError]; an interval of zero raises [ZeroDivisionError]; for any other
    interval [K], negative ones included, the update runs the coefficient
    recomputation (average, ratio and clip, smoothing, viscosity) exactly
    when [K] divides the step index, and only refreshes [nut_] otherwise. *)
Theorem les_update_interval_cases l b :
  match DynamicSmagorinsky l !! "Cs_comp_step" with
  | None => les_update l b = Raise (KeyError "Cs_comp_step")
  | Some K =>
      if decide (K = 0%Z) then les_update l b = Raise ZeroDivisionError
      else (full_recompute l <-> (K | tstep l)%Z) /\
           (skip_step l <-> ~ (K | tstep l)%Z) /\
           ((K | tstep l)%Z ->
            les_update l b =
              (b1 ← update_Cs (les_average l b).1;
               mret (update_nut (les_average l b).2 (smooth_Cs b1)))) /\
           (~ (K | tstep l)%Z -> les_update l b = OK (refresh_nut l b))
  end.
Proof.
  destruct (DynamicSmagorinsky l !! "Cs_comp_step") as [K|] eqn:HK.
  - destruct (decide (K = 0%Z)) as [->|HK0].
    + unfold les_update, getitem. now rewrite HK.
    + assert (Hfull : (K | tstep l)%Z -> full_recompute l).
      { intros Hdiv. exists K. repeat split; try assumption.
        now apply Z.mod_divide. }
      assert (Hskip : ~ (K | tstep l)%Z -> skip_step l).
      { intros Hdiv. exists K. repeat split; try assumption.
        intros Hmod. apply Hdiv. now apply Z.mod_divide. }
      split; [|split; [|split]].
      * split; [|exact Hfull].
        intros (K' & HK' & _ & Hmod). rewrite HK in HK'. injection HK' as <-.
        now apply Z.mod_divide.
      * split; [|exact Hskip].
        intros (K' & HK' & _ & Hmod) Hdiv. rewrite HK in HK'. injection HK' as <-.
        apply Hmod. now apply Z.mod_divide.
      * intros Hdiv. now apply les_update_full, Hfull.
      * intros Hdiv. now apply les_update_skip, Hskip.
  - unfold les_update, getitem. now rewrite HK.
Qed.

End UpdateCases.

Section BoundaryValues.
Context {n : nat} {Mesh Velocity BCValue SubDomain : Type}.
Context {sub : Substrate n Mesh Velocity BCValue SubDomain}.
Implicit Types (b : Bundle n BCValue SubDomain) (l : Locals Velocity).
Implicit Types (i : fin n) (v : array n) (bc : DirichletBC BCValue SubDomain).
Implicit Types (bcs : list (DirichletBC BCValue SubDomain)).

Lemma bc_apply_marked bc v i :
  i ∈ boundary_dofs (user_sub_domain bc) ->
  bc_apply bc v !!! i = boundary_value (value bc) i.
Proof.
  unfold bc_apply. induction (boundary_dofs (user_sub_domain bc)) as [|j js IH];
    simpl; intros Hin.
  - now apply elem_of_nil in Hin.
  - destruct (decide (j = i)) as [->|Hne].
    + apply vlookup_insert.
    + rewrite vlookup_insert_ne by exact Hne. apply IH.
      apply elem_of_cons in Hin as [->|Hin]; [contradiction|exact Hin].
Qed.

Lemma bc_apply_unmarked bc v i :
  i ∉ boundary_dofs (user_sub_domain bc) -> bc_apply bc v !!! i = v !!! i.
Proof.
  unfold bc_apply. induction (boundary_dofs (user_sub_domain bc)) as [|j js IH];
    simpl; intros Hnin; [reflexivity|].
  apply not_elem_of_cons in Hnin as [Hne Hnin].
  rewrite vlookup_insert_ne by (intros ->; contradiction). now apply IH.
Qed.

Lemma apply_bcs_unmarked bcs v i :
  unmarked bcs i -> apply_bcs bcs v !!! i = v !!! i.
Proof.
  unfold unmarked, apply_bcs. intros Hall. revert v.
  induction Hall as [|bc bcs Hbc _ IH]; intros v; simpl; [reflexivity|].
  rewrite IH. now apply bc_apply_unmarked.
Qed.

Lemma apply_bcs_last_marking pre bc post v i :
  i ∈ boundary_dofs (user_sub_domain bc) -> unmarked post i ->
  apply_bcs (pre ++ bc :: post) v !!! i = boundary_value (value bc) i.
Proof.
  intros Hin Hpost. unfold apply_bcs. rewrite fold_left_app. simpl.
  fold (apply_bcs pre v).
  fold (apply_bcs post (bc_apply bc (apply_bcs pre v))).
  rewrite (apply_bcs_unmarked _ _ _ Hpost). now apply bc_apply_marked.
Qed.

Lemma les_update_OK_inv l b b' :
  les_update l b = OK b' ->
  b' = refresh_nut l b \/
  exists ratio,
    array_div (values (JLM (les_average l b).1)) (values (JMM (les_average l b).1))
      = OK ratio /\
    b' = update_nut (les_average l b).2
           (smooth_Cs (with_Cs (set_local (Cs (les_average l b).1)
                                          (clip_max ratio Cs_ceiling))
                               (les_average l b).1)).
Proof.
  unfold les_update.
  destruct (getitem _ _) as [K|e]; simpl; [|discriminate].
  destruct (py_mod _ _) as [r|e]; simpl; [|discriminate].
  destruct (negb _).
  - intros [= <-]. now left.
  - destruct (les_average l b) as [bA magS]. simpl.
    destruct (update_Cs bA) as [b1|e] eqn:E; simpl; [|discriminate].
    intros [= <-]. apply update_Cs_inv in E as (ratio & Hdiv & ->).
    right. now exists ratio.
Qed.

(** What [nut_] holds after a full-recompute step.  At a node that no
    boundary condition of [nut_] marks, it is the product
    [Cs * delta_CG1_sq * magS] of the new coefficient there; at a marked
    node it is the value prescribed by the last condition of the list
    [nut_.bcs] that marks the node, later conditions overriding earlier
    ones. *)
Theorem nut_after_full_recompute l b b' i :
  full_recompute l -> les_update l b = OK b' ->
  (unmarked (fn_bcs (nut_ b)) i ->
   values (fn (nut_ b')) !!! i
     = values (Cs b') !!! i * values (delta_CG1_sq b) !!! i
       * (les_average l b).2 !!! i) /\
  (forall pre bc post,
     fn_bcs (nut_ b) = pre ++ bc :: post ->
     i ∈ boundary_dofs (user_sub_domain bc) -> unmarked post i ->
     values (fn (nut_ b')) !!! i = boundary_value (value bc) i).
Proof.
  intros Hfull Hrun.
  destruct (les_update_full_inv l b b' Hfull Hrun) as (ratio & _ & ->).
  pose proof (les_average_frame l b) as (Hp & _ & Hnut & _).
  injection Hp as Hd _ _ _ _ _ _. simpl. rewrite Hnut, Hd. split.
  - intros Hun. rewrite (apply_bcs_unmarked _ _ _ Hun).
    now rewrite !array_mul_lookup.
  - intros pre bc post -> Hin Hpost. now apply apply_bcs_last_marking.
Qed.

Lemma dot_nonneg (w v : array n) :
  (forall j, 0 <= w !!! j) -> (forall j, 0 <= v !!! j) -> 0 <= dot w v.
Proof.
  unfold dot. clear.
  induction w as [|x m w IH]; inv_vec v; simpl.
  - intros _ _. lra.
  - intros y v Hw Hv.
    specialize (IH v (fun j => Hw (FS j)) (fun j => Hv (FS j))).
    pose proof (Hw 0%fin) as Hx. pose proof (Hv 0%fin) as Hy. simpl in Hx, Hy.
    nra.
Qed.

Lemma tophat_pass_nonneg (G : matrix n) (g : array n) v :
  (forall i j, 0 <= (G !!! i) !!! j) -> (forall i, 0 <= g !!! i) ->
  (forall i, 0 <= v !!! i) ->
  forall i, 0 <= tophat_pass G g 1 v !!! i.
Proof.
  intros HG Hg Hv i. unfold tophat_pass.
  rewrite blend_lookup, array_mul_lookup, matvec_lookup.
  pose proof (dot_nonneg (G !!! i) v (HG i) Hv) as Hdot.
  pose proof (Hg i) as Hgi. nra.
Qed.

(** The eddy viscosity does not become negative when the averaged numerator
    is not negative.  On a full-recompute step with [JLM >= 0] and [JMM > 0]
    at every node after the Lagrangian average, and with non-negative filter
    weights, the new [Cs] is non-negative at every node; where moreover
    [delta_CG1_sq] and [magS] are non-negative, so is [nut_] at every node
    that no boundary condition marks. *)
Theorem nonnegative_viscosity l b b' :
  full_recompute l -> les_update l b = OK b' ->
  (forall i j, 0 <= (G_matr b !!! i) !!! j) ->
  (forall i, 0 <= values (G_under b) !!! i) ->
  (forall i, 0 <= values (JLM (les_average l b).1) !!! i) ->
  (forall i, 0 < values (JMM (les_average l b).1) !!! i) ->
  (forall i, 0 <= values (Cs b') !!! i) /\
  ((forall i, 0 <= values (delta_CG1_sq b) !!! i) ->
   (forall i, 0 <= (les_average l b).2 !!! i) ->
   forall i, unmarked (fn_bcs (nut_ b)) i -> 0 <= values (fn (nut_ b')) !!! i).
Proof.
  intros Hfull Hrun HG Hg HJLM HJMM.
  assert (HCs : forall i, 0 <= values (Cs b') !!! i).
  { destruct (les_update_full_inv l b b' Hfull Hrun) as (ratio & Hratio & ->).
    pose proof (les_average_frame l b) as (Hp & _ & _ & _).
    injection Hp as _ _ HG' Hg' _ _ _. simpl. rewrite HG', Hg'.
    intros i. apply tophat_pass_nonneg; try assumption.
    apply tophat_pass_nonneg; try assumption.
    intros j. rewrite clip_max_lookup, (array_div_lookup _ _ _ j Hratio).
    apply Q.min_glb; [|unfold Cs_ceiling; lra].
    apply Qle_shift_div_l; [apply HJMM|]. rewrite Qmult_0_l. apply HJLM. }
  split; [exact HCs|].
  intros Hdelta HmagS i Hun.
  pose proof (HCs i) as HCi. pose proof (Hdelta i). pose proof (HmagS i).
  destruct (les_update_full_inv l b b' Hfull Hrun) as (ratio & _ & ->).
  pose proof (les_average_frame l b) as (Hp & _ & Hnut & _).
  injection Hp as Hd _ _ _ _ _ _. revert HCi. simpl. rewrite Hnut, Hd.
  intros HCi. rewrite (apply_bcs_unmarked _ _ _ Hun), !array_mul_lookup.
  apply Qmult_le_0_compat; [apply Qmult_le_0_compat|]; assumption.
Qed.

End BoundaryValues.

(** * Further properties of [les_setup] *)

Section SetupCases.
Context {n : nat} {Mesh Velocity BCValue SubDomain : Type}.
Context {sub : Substrate n Mesh Velocity BCValue SubDomain}.
Implicit Types (b : Bundle n BCValue SubDomain) (l : Locals Velocity).
Implicit Types (bcs : gmap string (list (DirichletBC BCValue SubDomain))).

Lemma make_bcs_u_CG1_KeyError pre k post bcs acc :
  Forall (fun ui => is_Some (bcs !! ui)) pre -> bcs !! k = None ->
  make_bcs_u_CG1 (pre ++ k :: post) bcs acc = Raise (KeyError k).
Proof.
  intros Hpre Hk. revert acc.
  induction Hpre as [|ui pre [bcs_ui Hui] _ IH]; intros acc; simpl.
  - unfold getitem. now rewrite Hk.
  - unfold getitem. rewrite Hui. simpl. apply IH.
Qed.

(** The keys [les_setup] reads from the dict of boundary conditions are
    ["u0"], whatever the velocity components are called, and then every
    name of [u_components] in order; the first of these keys that the dict
    lacks is the one the [KeyError] names. *)
Theorem les_setup_KeyError u_ mesh assemble_matrix nut_krylov_solver
    u_components bcs next pre k post :
  geometry_dim mesh <> 0%nat ->
  "u0" :: u_components = pre ++ k :: post ->
  Forall (fun ui => is_Some (bcs !! ui)) pre ->
  bcs !! k = None ->
  les_setup u_ mesh assemble_matrix nut_krylov_solver u_components bcs next
    = Raise (KeyError k).
Proof.
  intros Hd Hkeys Hpre Hk. unfold les_setup.
  unfold mbind, Setup_bind, lift.
  apply Nat.eqb_neq in Hd. rewrite Hd.
  unfold new_Function at 1 2. unfold getitem at 1.
  destruct pre as [|u0 pre]; simpl in Hkeys; injection Hkeys as <- Hcomps.
  - now rewrite Hk.
  - apply Forall_cons in Hpre as [[bcs_u0 Hu0] Hpre]. rewrite Hu0.
    unfold new_Function at 1. rewrite Hcomps.
    now rewrite (make_bcs_u_CG1_KeyError pre k post bcs ∅ Hpre Hk).
Qed.

Lemma make_bcs_u_CG1_lookup comps bcs acc r ui :
  make_bcs_u_CG1 comps bcs acc = OK r ->
  r !! ui = if decide (ui ∈ comps) then to_CG1 <$> (bcs !! ui) else acc !! ui.
Proof.
  revert acc. induction comps as [|c rest IH]; intros acc; simpl.
  - intros [= <-]. destruct (decide (ui ∈ [])) as [Hin|_]; [|reflexivity].
    now apply elem_of_nil in Hin.
  - unfold getitem. destruct (bcs !! c) as [bcs_c|] eqn:Hc; simpl; [|discriminate].
    intros Hr. rewrite (IH _ Hr).
    destruct (decide (ui ∈ rest)) as [Hin|Hnin].
    + rewrite decide_True by (now apply elem_of_cons; right). reflexivity.
    + destruct (decide (ui = c)) as [->|Hne].
      * rewrite decide_True by (apply elem_of_cons; now left).
        now rewrite lookup_insert_eq, Hc.
      * rewrite decide_False
          by (intros [->|Hin]%elem_of_cons; [now apply Hne | now apply Hnin]).
        now rewrite lookup_insert_ne by (intros ->; now apply Hne).
Qed.

(** The dict [bcs_u_CG1] mirrors the solver's velocity conditions.  Its keys
    are the names in [u_components] and no others; under a name it holds one
    condition per condition the solver declares for that component, in the
    same order, each on the space CG1 and with the value and the sub-domain
    of the original. *)
Theorem bcs_u_CG1_mirrors_bcs u_ mesh assemble_matrix nut_krylov_solver
    u_components bcs next b next' :
  les_setup u_ mesh assemble_matrix nut_krylov_solver u_components bcs next
    = OK (b, next') ->
  forall ui,
    (ui ∉ u_components -> bcs_u_CG1 b !! ui = None) /\
    (ui ∈ u_components ->
     exists bcs_ui bcs_CG1,
       bcs !! ui = Some bcs_ui /\ bcs_u_CG1 b !! ui = Some bcs_CG1 /\
       Forall2 (fun bc bc' => bc_space bc' = CG1space /\
                              value bc' = value bc /\
                              user_sub_domain bc' = user_sub_domain bc)
               bcs_ui bcs_CG1).
Proof.
  intros (bcs_u0 & bcs_CG1 & inv & _ & _ & HCG1 & _ & ->)%les_setup_inv ui.
  simpl. rewrite (make_bcs_u_CG1_lookup _ _ _ _ ui HCG1). split.
  - intros Hnin. now rewrite decide_False.
  - intros Hin. rewrite decide_True by exact Hin.
    destruct (bcs !! ui) as [bcs_ui|] eqn:Hui.
    + exists bcs_ui, (to_CG1 bcs_ui). repeat split.
      unfold to_CG1. clear. induction bcs_ui as [|bc rest IH]; simpl;
        constructor; [repeat split | exact IH].
    + exfalso.
      apply list_elem_of_split in Hin as (pre & post & ->).
      assert (Hraise : exists k, make_bcs_u_CG1 (pre ++ ui :: post) bcs ∅
                                 = Raise (KeyError k)).
      { clear HCG1. generalize (∅ : gmap string (list (DirichletBC BCValue SubDomain))).
        induction pre as [|c pre IH]; intros acc; simpl.
        - unfold getitem. rewrite Hui. eauto.
        - unfold getitem. destruct (bcs !! c); simpl; eauto. }
      destruct Hraise as [k Hk]. rewrite Hk in HCG1. discriminate.
Qed.

Lemma les_setup_counter u_ mesh assemble_matrix nut_krylov_solver u_components
    bcs next b next' :
  les_setup u_ mesh assemble_matrix nut_krylov_solver u_components bcs next
    = OK (b, next') ->
  next' = (next + 7 + 2 * geometry_dim mesh
           + 4 * (geometry_dim mesh * geometry_dim mesh))%nat.
Proof.
  unfold les_setup. set (d := geometry_dim mesh).
  unfold mbind, Setup_bind, lift.
  destruct (d =? 0)%nat; [discriminate|].
  unfold new_Function at 1 2.
  destruct (getitem bcs "u0") as [bcs_u0|e]; [|discriminate].
  unfold new_Function at 1.
  destruct (make_bcs_u_CG1 u_components bcs ∅) as [bcs_CG1|e]; [|discriminate].
  rewrite new_Functions_spec. rewrite new_Functions_spec.
  unfold new_Function at 1 2. simpl values.
  destruct (scalar_div 1 (assemble_test mesh)) as [inv|e]; [|discriminate].
  repeat rewrite new_Functions_spec.
  unfold new_Function. unfold mret, Setup_ret.
  destruct (d =? 3)%nat; intros [= _ <-]; lia.
Qed.

(** [les_setup] creates [7 + 2 dim + 4 dim^2] nodal functions, and every
    one of them ends up in the bundle: taken in the order of their creation,
    the functions of the bundle carry the consecutive identities handed out
    between the call and the return.  In particular no two entries of the
    bundle are the same object. *)
Theorem les_setup_allocation u_ mesh assemble_matrix nut_krylov_solver
    u_components bcs next b next' :
  les_setup u_ mesh assemble_matrix nut_krylov_solver u_components bcs next
    = OK (b, next') ->
  next' = (next + 7 + 2 * dim b + 4 * (dim b * dim b))%nat /\
  map fid (functions_of b) = seq next (next' - next) /\
  NoDup (map fid (functions_of b)).
Proof.
  intros Hsetup.
  pose proof (les_setup_counter _ _ _ _ _ _ _ _ _ Hsetup) as Hnext.
  apply les_setup_inv in Hsetup
    as (bcs_u0 & bcs_CG1 & inv & Hd & _ & _ & _ & ->).
  set (d := geometry_dim mesh) in *. simpl dim.
  split; [exact Hnext|].
  assert (Hids : map fid (functions_of
            (mkBundle
          (mkCG1Function (mkFunction (next + 2) array_zero)
             (derived_bcs bcs_u0 u_) nut_krylov_solver true)
          (derived_bcs bcs_u0 u_)
          (mkFunction next (array_sq (project_delta mesh)))
          (mkFunction (next + 1) array_zero)
          (fresh_zeros (next + 3) d)
          (fresh_zeros (next + 3 + d) d)
          (fresh_zeros (next + 5 + 2 * d) (d * d))
          (fresh_zeros (next + 5 + 2 * d + d * d) (d * d))
          (fresh_zeros (next + 5 + 2 * d + 2 * (d * d)) (d * d))
          (fresh_zeros (next + 5 + 2 * d + 3 * (d * d)) (d * d))
          (map assemble_matrix (seq 0 d))
          (mkFunction (next + 5 + 2 * d + 4 * (d * d))
             (array_add_scalar array_zero (1 # 10 ^ 32)))
          (mkFunction (next + 6 + 2 * d + 4 * (d * d))
             (array_add_scalar array_zero 1))
          d
          (if (d =? 3)%nat then 6 else 3)%nat
          (assemble_mass mesh)
          (mkFunction (next + 4 + 2 * d) inv)
          (mkFunction (next + 3 + 2 * d) array_zero)
          (if (d =? 3)%nat
           then [(0,0); (0,1); (0,2); (1,1); (1,2); (2,2)]
           else [(0,0); (0,1); (1,1)])%nat
          (mkKrylovSolver "cg" "default" "same_nonzero_pattern" false false false)
          bcs_CG1)) = seq next (next' - next)).
  { unfold functions_of. cbn [delta_CG1_sq Cs nut_ fn u_CG1 u_filtered dummy
      G_under Lij Mij Sijcomps Sijfcomps JLM JMM].
    rewrite !map_app, !fresh_zeros_fid. cbn [map fid app].
    replace (next' - next)%nat
      with (3 + (d + (d + (2 + (d * d + (d * d + (d * d + (d * d + 2))))))))%nat
      by lia.
    rewrite !seq_app. cbn [seq app].
    repeat (f_equal; try lia). }
  split; [exact Hids|]. rewrite Hids. apply NoDup_seq.
Qed.

(** The cached field [delta_CG1_sq] is nowhere negative, whatever sign the
    projection of [delta] takes at a node: line 32 squares the projected
    values. *)
Theorem delta_CG1_sq_nonnegative u_ mesh assemble_matrix nut_krylov_solver
    u_components bcs next b next' :
  les_setup u_ mesh assemble_matrix nut_krylov_solver u_components bcs next
    = OK (b, next') ->
  forall i : fin n, 0 <= values (delta_CG1_sq b) !!! i.
Proof.
  intros (bcs_u0 & bcs_CG1 & inv & _ & _ & _ & _ & ->)%les_setup_inv i.
  simpl. unfold array_sq. rewrite vlookup_map.
  set (x := project_delta mesh !!! i).
  assert (Hsq : x ^ 2 == x * x) by (simpl; ring).
  rewrite Hsq. nra.
Qed.

(** Every mesh whose dimension is not 3 gets the 2-D layout: [tensdim] is 3
    and the pairs list is ((0,0),(0,1),(1,1)).  On a 1-D mesh this layout
    does not fit what is allocated: each tensor list holds a single function
    for three components, and two of the pairs name the component index 1,
    which a 1-D velocity does not have. *)
Theorem non_3D_meshes_get_2D_layout u_ mesh assemble_matrix nut_krylov_solver
    u_components bcs next b next' :
  les_setup u_ mesh assemble_matrix nut_krylov_solver u_components bcs next
    = OK (b, next') ->
  dim b <> 3%nat ->
  tensdim b = 3%nat /\ uiuj_pairs b = [(0,0); (0,1); (1,1)]%nat /\
  (dim b = 1%nat ->
     length (Lij b) = 1%nat /\ length (Mij b) = 1%nat /\
     (length (Lij b) < tensdim b)%nat /\
     Exists (fun p : nat * nat => (dim b <= p.2)%nat) (uiuj_pairs b)).
Proof.
  intros (bcs_u0 & bcs_CG1 & inv & Hd & _ & _ & _ & ->)%les_setup_inv.
  simpl. intros Hd3. apply Nat.eqb_neq in Hd3. rewrite Hd3.
  split; [reflexivity|]. split; [reflexivity|].
  intros ->. rewrite !fresh_zeros_length. repeat split; try lia.
  apply Exists_cons_tl, Exists_cons_hd. simpl. lia.
Qed.

Lemma les_run_app (ls1 ls2 : list (Locals Velocity)) b :
  les_run (ls1 ++ ls2) b = (b1 ← les_run ls1 b; les_run ls2 b1).
Proof.
  revert b. induction ls1 as [|l ls1 IH]; intros b; simpl; [reflexivity|].
  destruct (les_update l b) as [b1|e]; simpl; [apply IH | reflexivity].
Qed.

Lemma les_run_skip_only (ls : list (Locals Velocity)) b :
  Forall skip_step ls ->
  exists b', les_run ls b = OK b' /\
             Cs b' = Cs b /\ JLM b' = JLM b /\ JMM b' = JMM b.
Proof.
  intros Hall. revert b. induction Hall as [|l ls Hl _ IH]; intros b; simpl.
  - now exists b.
  - rewrite (les_update_skip l b Hl). simpl.
    destruct (IH (refresh_nut l b)) as (b' & Hrun & HCs & HJLM & HJMM).
    exists b'. now repeat split.
Qed.

(** Until the first full-recompute step the model contributes no eddy
    viscosity of its own making: through any sequence of skip steps that
    follows setup, [Cs] stays identically zero and [JLM] and [JMM] keep
    their initial values, so each refresh of [nut_] evaluates [nut_form]
    with a zero coefficient. *)
Theorem coefficient_zero_until_first_recompute u_setup mesh assemble_matrix
    nut_krylov_solver u_components bcs next b0 next' ls :
  les_setup u_setup mesh assemble_matrix nut_krylov_solver u_components bcs next
    = OK (b0, next') ->
  Forall skip_step ls ->
  exists b,
    les_run ls b0 = OK b /\
    values (Cs b) = array_zero /\
    values (JLM b) = vreplicate n (1 # 10 ^ 32) /\
    values (JMM b) = vreplicate n 1 /\
    (forall ls' l, ls = ls' ++ [l] ->
       exists prev, les_run ls' b0 = OK prev /\
         values (fn (nut_ b)) = CG1Function_call array_zero (u_ l) (nut_ prev)).
Proof.
  intros Hsetup Hskip.
  destruct (les_run_skip_only ls b0 Hskip) as (b & Hrun & HCs & HJLM & HJMM).
  exists b. split; [exact Hrun|].
  rewrite HCs, HJLM, HJMM.
  apply les_setup_inv in Hsetup as (bcs_u0 & bcs_CG1 & inv & _ & _ & _ & _ & Hb0).
  split; [now rewrite Hb0|].
  split; [rewrite Hb0; simpl; unfold array_add_scalar, array_zero;
          now rewrite vmap_vreplicate|].
  split; [rewrite Hb0; simpl; unfold array_add_scalar, array_zero;
          now rewrite vmap_vreplicate|].
  intros ls' l ->. apply Forall_app in Hskip as [Hskip' Hl].
  apply Forall_cons in Hl as [Hl _].
  destruct (les_run_skip_only ls' b0 Hskip') as (prev & Hprev & HCs' & _).
  exists prev. split; [exact Hprev|].
  rewrite les_run_app, Hprev in Hrun. simpl in Hrun.
  rewrite (les_update_skip l prev Hl) in Hrun. simpl in Hrun.
  injection Hrun as <-. simpl. rewrite HCs', Hb0. reflexivity.
Qed.

End SetupCases.

(** ** The further properties on the toy mesh *)

Lemma toy_node_1_unmarked (S : Substrate 3 nat unit Q (list (fin 3))) :
  boundary_dofs (Substrate := S) = (fun sd => sd) ->
  unmarked (sub := S) (fn_bcs (nut_ toy_bundle)) 1%fin.
Proof.
  intros HS. unfold unmarked. rewrite HS. repeat constructor.
  intros Hin. apply list_elem_of_singleton in Hin. discriminate.
Qed.

Lemma nut_after_full_recompute_witness :
  full_recompute (toy_locals 0 1) /\
  les_update (sub := toy_small) (toy_locals 0 1) toy_bundle = OK toy_small_next /\
  unmarked (sub := toy_small) (fn_bcs (nut_ toy_bundle)) 1%fin /\
  values (fn (nut_ toy_small_next)) !!! 1%fin
    = values (Cs toy_small_next) !!! 1%fin * values (delta_CG1_sq toy_bundle) !!! 1%fin
      * (les_average (sub := toy_small) (toy_locals 0 1) toy_bundle).2 !!! 1%fin /\
  values (fn (nut_ toy_small_next)) !!! 0%fin = 0.
Proof.
  pose proof (toy_node_1_unmarked toy_small eq_refl) as Hun.
  split; [exact toy_full_recompute|]. split; [exact toy_small_step|].
  split; [exact Hun|]. split.
  - exact (proj1 (nut_after_full_recompute (sub := toy_small) (toy_locals 0 1)
                    toy_bundle toy_small_next 1%fin toy_full_recompute
                    toy_small_step) Hun).
  - apply (proj2 (nut_after_full_recompute (sub := toy_small) (toy_locals 0 1)
                    toy_bundle toy_small_next 0%fin toy_full_recompute
                    toy_small_step)
             [] (mkDirichletBC CG1space 0 [0%fin]) [] eq_refl).
    + apply list_elem_of_singleton. reflexivity.
    + constructor.
Defined.

Lemma nonnegative_viscosity_witness :
  full_recompute (toy_locals 0 1) /\
  les_update (sub := toy_small) (toy_locals 0 1) toy_bundle = OK toy_small_next /\
  (forall i, 0 <= values (Cs toy_small_next) !!! i) /\
  0 <= values (fn (nut_ toy_small_next)) !!! 1%fin.
Proof.
  split; [exact toy_full_recompute|]. split; [exact toy_small_step|].
  destruct toy_tophat_averaging as (HG & Hg & _).
  destruct (nonnegative_viscosity (sub := toy_small) (toy_locals 0 1) toy_bundle
              toy_small_next toy_full_recompute toy_small_step HG Hg)
    as [HCs Hnut].
  - apply fin3_all; vm_compute; discriminate.
  - apply fin3_all; vm_compute; reflexivity.
  - split; [exact HCs|]. apply Hnut.
    + apply fin3_all; vm_compute; discriminate.
    + apply fin3_all; vm_compute; discriminate.
    + exact (toy_node_1_unmarked toy_small eq_refl).
Defined.

Lemma les_setup_KeyError_witness :
  toy_bcs_no_u1 !! "u1" = None /\
  les_setup (sub := toy_small) tt 2%nat (fun _ => toy_mass) ∅
    ["u0"; "u1"]%string toy_bcs_no_u1 0%nat = Raise (KeyError "u1").
Proof.
  split; [reflexivity|].
  apply (les_setup_KeyError (sub := toy_small) tt 2%nat (fun _ => toy_mass) ∅
           ["u0"; "u1"]%string toy_bcs_no_u1 0%nat ["u0"; "u0"]%string "u1" []).
  - discriminate.
  - reflexivity.
  - repeat constructor; eexists; reflexivity.
  - reflexivity.
Defined.

Lemma bcs_u_CG1_mirrors_bcs_witness :
  toy_setup [# 1; 1; 1] [# 1; 1; 1] [# 1; 1; 1] = OK (toy_bundle, 27%nat) /\
  bcs_u_CG1 toy_bundle !! "u2" = None /\
  exists bcs_ui bcs_CG1,
    toy_bcs !! "u0" = Some bcs_ui /\ bcs_u_CG1 toy_bundle !! "u0" = Some bcs_CG1 /\
    Forall2 (fun bc bc' => bc_space bc' = CG1space /\
                           value bc' = value bc /\
                           user_sub_domain bc' = user_sub_domain bc)
            bcs_ui bcs_CG1.
Proof.
  pose proof (toy_setup_bundle [# 1; 1; 1] [# 1; 1; 1] [# 1; 1; 1]) as Hsetup.
  pose proof (bcs_u_CG1_mirrors_bcs
                (sub := toy [# 1; 1; 1] [# 1; 1; 1] [# 1; 1; 1])
                tt 2%nat (fun _ => toy_mass) ∅ ["u0"; "u1"]%string toy_bcs
                0%nat toy_bundle 27%nat Hsetup) as Hmirror.
  split; [exact Hsetup|]. split.
  - apply (proj1 (Hmirror "u2")).
    intros Hin. repeat (apply elem_of_cons in Hin as [Hin|Hin]; [discriminate|]).
    now apply elem_of_nil in Hin.
  - apply (proj2 (Hmirror "u0")). apply elem_of_cons. now left.
Defined.

Lemma les_setup_allocation_witness :
  toy_setup [# 1; 1; 1] [# 1; 1; 1] [# 1; 1; 1] = OK (toy_bundle, 27%nat) /\
  map fid (functions_of toy_bundle) = seq 0 27 /\
  NoDup (map fid (functions_of toy_bundle)).
Proof.
  pose proof (toy_setup_bundle [# 1; 1; 1] [# 1; 1; 1] [# 1; 1; 1]) as Hsetup.
  split; [exact Hsetup|].
  exact (proj2 (les_setup_allocation
                  (sub := toy [# 1; 1; 1] [# 1; 1; 1] [# 1; 1; 1])
                  tt 2%nat (fun _ => toy_mass) ∅ ["u0"; "u1"]%string toy_bcs
                  0%nat toy_bundle 27%nat Hsetup)).
Defined.

Lemma delta_CG1_sq_nonnegative_witness :
  toy_setup [# 1; 1; 1] [# 1; 1; 1] [# 1; 1; 1] = OK (toy_bundle, 27%nat) /\
  forall i : fin 3, 0 <= values (delta_CG1_sq toy_bundle) !!! i.
Proof.
  pose proof (toy_setup_bundle [# 1; 1; 1] [# 1; 1; 1] [# 1; 1; 1]) as Hsetup.
  split; [exact Hsetup|].
  exact (delta_CG1_sq_nonnegative
           (sub := toy [# 1; 1; 1] [# 1; 1; 1] [# 1; 1; 1])
           tt 2%nat (fun _ => toy_mass) ∅ ["u0"; "u1"]%string toy_bcs
           0%nat toy_bundle 27%nat Hsetup).
Defined.

Lemma toy_setup_1D :
  les_setup (sub := toy_small) tt 1%nat (fun _ => toy_mass) ∅
    ["u0"; "u1"]%string toy_bcs 0%nat = OK (toy_bundle_1D, 13%nat).
Proof. vm_compute. reflexivity. Qed.

Lemma non_3D_meshes_get_2D_layout_witness :
  les_setup (sub := toy_small) tt 1%nat (fun _ => toy_mass) ∅
    ["u0"; "u1"]%string toy_bcs 0%nat = OK (toy_bundle_1D, 13%nat) /\
  dim toy_bundle_1D = 1%nat /\
  tensdim toy_bundle_1D = 3%nat /\
  length (Lij toy_bundle_1D) = 1%nat.
Proof.
  split; [exact toy_setup_1D|]. split; [reflexivity|].
  destruct (non_3D_meshes_get_2D_layout (sub := toy_small)
              tt 1%nat (fun _ => toy_mass) ∅ ["u0"; "u1"]%string toy_bcs
              0%nat toy_bundle_1D 13%nat toy_setup_1D)
    as (Htens & _ & H1D); [discriminate|].
  split; [exact Htens|]. exact (proj1 (H1D eq_refl)).
Defined.

Lemma toy_two_skips_skip : Forall skip_step toy_two_skips.
Proof.
  repeat constructor; exists 3%Z;
    (split; [reflexivity | split; discriminate]).
Qed.

Lemma coefficient_zero_until_first_recompute_witness :
  toy_setup [# 1 # 10000; 1 # 10000; 1 # 10000] [# 1; 1; 1] [# 1; 1; 1]
    = OK (toy_bundle, 27%nat) /\
  Forall skip_step toy_two_skips /\
  exists b,
    les_run (sub := toy_small) toy_two_skips toy_bundle = OK b /\
    values (Cs b) = [# 0; 0; 0].
Proof.
  pose proof (toy_setup_bundle [# 1 # 10000; 1 # 10000; 1 # 10000]
                [# 1; 1; 1] [# 1; 1; 1]) as Hsetup.
  split; [exact Hsetup|]. split; [exact toy_two_skips_skip|].
  destruct (coefficient_zero_until_first_recompute (sub := toy_small)
              tt 2%nat (fun _ => toy_mass) ∅ ["u0"; "u1"]%string toy_bcs
              0%nat toy_bundle 27%nat toy_two_skips Hsetup toy_two_skips_skip)
    as (b & Hrun & HCs & _).
  exists b. split; [exact Hrun | exact HCs].
Defined.
